(** * Boomi process log space analyzer: a shallow embedding

    Source: [src/kw/boomi_log_analyzer.py].

    The Python program is embedded as follows.
    - Python [int] is [Z]; [str] is [string].
    - A Python [dict] is an association list in insertion order
      ([Dict.set] overwrites in place or appends, as CPython does).
    - [hash] on strings is a parameter: CPython salts it per interpreter
      start, so within one run it is one fixed function [string -> Z].
    - [float] values and their arithmetic are an interface ([PyFloat]);
      an integer divisor equal to zero raises [ZeroDivisionError], an
      integer or a quotient beyond the range of a float [OverflowError].
    - The file system is an input: each call the operating system can
      refuse comes with its outcome.
    - Exceptions are values of [result]; [print] output is returned as a
      list of lines next to the result. *)

From Stdlib Require Import ZArith List String Ascii Bool Lia Permutation QArith.
From Stdlib Require Import DecimalString.
Import ListNotations.
Local Open Scope string_scope.
Local Open Scope Z_scope.
Local Open Scope list_scope.

Set Implicit Arguments.

(* ================================================================= *)
(** ** Exceptions *)

Inductive exn : Type :=
| ZeroDivisionError
| AttributeError (attr : string)
| TypeError
| OverflowError
| ValueError (msg : string)
| OSError (msg : string).

Inductive result (A : Type) : Type :=
| Ok (a : A)
| Raise (e : exn).

Arguments Ok {A} a.
Arguments Raise {A} e.

Definition bind {A B : Type} (r : result A) (k : A -> result B) : result B :=
  match r with
  | Ok a => k a
  | Raise e => Raise e
  end.

Notation "x <- r ;; k" := (bind r (fun x => k))
  (at level 61, r at next level, right associativity).

(* ================================================================= *)
(** ** Python dictionaries (insertion ordered) *)

Module Dict.

Definition dict (V : Type) : Type := list (string * V).

Definition keys {V : Type} (d : dict V) : list string := map fst d.

(** No key occurs twice: every Python dict satisfies this. *)
Definition wf {V : Type} (d : dict V) : Prop := NoDup (keys d).

(** [d.get(k)] *)
Fixpoint get {V : Type} (k : string) (d : dict V) : option V :=
  match d with
  | [] => None
  | (k', v) :: r => if String.eqb k k' then Some v else get k r
  end.

(** [k in d] *)
Definition mem {V : Type} (k : string) (d : dict V) : bool :=
  match get k d with
  | Some _ => true
  | None => false
  end.

(** [d.get(k, dflt)] *)
Definition get_default {V : Type} (k : string) (dflt : V) (d : dict V) : V :=
  match get k d with
  | Some v => v
  | None => dflt
  end.

(** [d[k] = v]: an existing key keeps its position, a new key goes last. *)
Fixpoint set {V : Type} (k : string) (v : V) (d : dict V) : dict V :=
  match d with
  | [] => [(k, v)]
  | (k', v') :: r =>
      if String.eqb k k' then (k', v) :: r else (k', v') :: set k v r
  end.

(** [d[k]] on a [defaultdict]: a missing key is first bound to the
    default value. *)
Definition getitem_default {V : Type} (dflt : V) (k : string) (d : dict V)
  : V * dict V :=
  match get k d with
  | Some v => (v, d)
  | None => (dflt, set k dflt d)
  end.

End Dict.

Import Dict.

(* ================================================================= *)
(** ** Data model (the three dataclasses) *)

(** [datetime] values are never inspected by the modelled functions.
    The fields [process_name] and [process_id] of [ExecutionInfo] carry
    the prefix [e_], since [ProcessInfo] has fields of the same names. *)
Definition datetime : Type := string.

Record ExecutionInfo : Type := mkExecutionInfo {
  execution_id : string;
  e_process_name : string;
  e_process_id : string;
  size_bytes : Z;
  timestamp : option datetime
}.

Record ProcessInfo : Type := mkProcessInfo {
  process_id : string;
  process_name : string;
  process_type : string;
  folder_name : string
}.

(** [process_info] is assigned from an accumulator slot that starts as
    [None], hence the option. *)
Record ExecutionStats : Type := mkExecutionStats {
  process_info : option ProcessInfo;
  execution_count : Z;
  total_size_bytes : Z;
  max_size_bytes : Z
}.

(* ================================================================= *)
(** ** create_process_name_to_id_mapping *)

(** Line 234, the loop body: [name_to_id[process_info.process_name] = process_id]. *)
Definition add_name (name_to_id : dict string) (item : string * ProcessInfo)
  : dict string :=
  let (process_id, process_info) := item in
  set (process_name process_info) process_id name_to_id.

Definition create_process_name_to_id_mapping (processes : dict ProcessInfo)
  : dict string :=
  fold_left add_name processes [].

(* ================================================================= *)
(** ** generate_execution_stats *)

(** The per-process accumulator: the inner dict built by the
    [defaultdict] factory. *)
Record Bucket : Type := mkBucket {
  b_process_info : option ProcessInfo;
  b_execution_count : Z;
  b_total_execution_size : Z;
  b_max_execution_size : Z;
  b_process_definition_size : Z
}.

Definition default_bucket : Bucket := mkBucket None 0 0 0 0.

(** [str(n)] for an integer. *)
Definition str_of_Z (n : Z) : string := NilZero.string_of_int (Z.to_int n).

Section Engine.

Variable hash : string -> Z.

(** [f"unknown_process_{hash(name) % 10000}"] *)
Definition fallback_id (name : string) : string :=
  ("unknown_process_" ++ str_of_Z (hash name mod 10000))%string.

(** Lines 353-358: the identifier an execution is filed under, and the
    updated set of unknown names. *)
Definition set_add (x : string) (s : list string) : list string :=
  if existsb (String.eqb x) s then s else s ++ [x].

Definition resolve (name_to_id : dict string) (name : string) : string :=
  let process_id := get_default name "" name_to_id in
  if String.eqb process_id "" then fallback_id name else process_id.

Definition note_unknown (name_to_id : dict string) (name : string)
    (unknown_processes : list string) : list string :=
  let process_id := get_default name "" name_to_id in
  if String.eqb process_id "" then set_add name unknown_processes
  else unknown_processes.

(** Lines 362-375: the update of one accumulator by one execution filed
    under [pid]. *)
Definition update_bucket (processes : dict ProcessInfo) (pid : string)
    (stats : Bucket) (execution : ExecutionInfo) : Bucket :=
  let count := b_execution_count stats + 1 in
  let total := b_total_execution_size stats + size_bytes execution in
  let mx := Z.max (b_max_execution_size stats) (size_bytes execution) in
  let info :=
    match get pid processes with
    | Some pi => Some pi
    | None =>
        match b_process_info stats with
        | Some old => Some old
        | None =>
            Some (mkProcessInfo pid (e_process_name execution) "unknown" "")
        end
    end in
  mkBucket info count total mx (b_process_definition_size stats).

(** Lines 361-375: [stats = stats_dict[process_id]] followed by the
    in-place updates of [stats]. *)
Definition record_execution (processes : dict ProcessInfo) (pid : string)
    (execution : ExecutionInfo) (stats_dict : dict Bucket) : dict Bucket :=
  let (stats, stats_dict1) := getitem_default default_bucket pid stats_dict in
  set pid (update_bucket processes pid stats execution) stats_dict1.

(** Lines 351-375: the loop over the executions; the state is the
    accumulator dict and the set of unknown names. *)
Definition execution_step (processes : dict ProcessInfo)
    (name_to_id : dict string)
    (st : dict Bucket * list string) (execution : ExecutionInfo)
  : dict Bucket * list string :=
  let (stats_dict, unknown_processes) := st in
  let name := e_process_name execution in
  (record_execution processes (resolve name_to_id name) execution stats_dict,
   note_unknown name_to_id name unknown_processes).

(** Lines 378-398: one definition size merged into the accumulators. *)
Definition add_definition_size (processes : dict ProcessInfo)
    (stats_dict : dict Bucket) (item : string * Z) : dict Bucket :=
  let (pid, definition_size) := item in
  match get pid stats_dict with
  | Some stats =>
      set pid
        (mkBucket (b_process_info stats) (b_execution_count stats)
           (b_total_execution_size stats) (b_max_execution_size stats)
           definition_size)
        stats_dict
  | None =>
      let info :=
        match get pid processes with
        | Some pi => pi
        | None => mkProcessInfo pid "NO_EXECUTIONS_FOUND" "unknown" ""
        end in
      set pid (mkBucket (Some info) 0 0 0 definition_size) stats_dict
  end.

(** Lines 408-415. *)
Definition finalize (stats : Bucket) : ExecutionStats :=
  let total_size :=
    b_total_execution_size stats + b_process_definition_size stats in
  mkExecutionStats (b_process_info stats) (b_execution_count stats)
    total_size
    (Z.max (b_max_execution_size stats) (b_process_definition_size stats)).

(** Lines 401-416, keeping the dict key next to each emitted element. *)
Fixpoint convert (items : dict Bucket) : list (string * ExecutionStats) :=
  match items with
  | [] => []
  | (pid, stats) :: rest =>
      if b_execution_count stats =? 0 then convert rest
      else (pid, finalize stats) :: convert rest
  end.

(** The accumulator dict and unknown-name set after the execution loop. *)
Definition after_executions (processes : dict ProcessInfo)
    (executions : list ExecutionInfo) : dict Bucket * list string :=
  let name_to_id := create_process_name_to_id_mapping processes in
  fold_left (execution_step processes name_to_id) executions ([], []).

(** The accumulator dict after both loops. *)
Definition merged_stats (processes : dict ProcessInfo)
    (process_sizes : dict Z) (executions : list ExecutionInfo) : dict Bucket :=
  fold_left (add_definition_size processes) process_sizes
    (fst (after_executions processes executions)).

Definition generate_execution_stats_items (processes : dict ProcessInfo)
    (process_sizes : dict Z) (executions : list ExecutionInfo)
  : list (string * ExecutionStats) :=
  convert (merged_stats processes process_sizes executions).

(** The returned [stats_list].  The closing diagnostic only prints
    [unknown_processes] and does not touch the list. *)
Definition generate_execution_stats (processes : dict ProcessInfo)
    (process_sizes : dict Z) (executions : list ExecutionInfo)
  : list ExecutionStats :=
  map snd (generate_execution_stats_items processes process_sizes executions).

Definition unknown_processes (processes : dict ProcessInfo)
    (executions : list ExecutionInfo) : list string :=
  snd (after_executions processes executions).

End Engine.

(** A small stand-in for the interpreter's string hash, used to run the
    engine on concrete inputs. *)
Fixpoint sum_codes (s : string) : Z :=
  match s with
  | EmptyString => 0
  | String c r => Z.of_N (N_of_ascii c) + 31 * sum_codes r
  end.

Definition scen_processes : dict ProcessInfo :=
  [("A1", mkProcessInfo "A1" "Invoice Sync" "process" "Finance")].
Definition scen_sizes : dict Z := [("A1", 1000)].
Definition scen_executions : list ExecutionInfo :=
  [mkExecutionInfo "execution-1" "Invoice Sync" "" 2000 None;
   mkExecutionInfo "execution-2" "Invoice Sync" "" 3000 None;
   mkExecutionInfo "execution-3" "Unknown Flow" "" 500 None].



(* ================================================================= *)
(** ** Vocabulary for statements about the engine *)

Definition sum_Z (l : list Z) : Z := fold_right Z.add 0 l.

(** The running maximum started from [a], as the loop computes it. *)
Definition max_from (a : Z) (l : list Z) : Z := fold_left Z.max l a.

(** The size left in a slot after the loop over [sizes]: the value of the
    last item with key [k], or [dflt] when there is none. *)
Definition last_size (dflt : Z) (k : string) (sizes : dict Z) : Z :=
  fold_left
    (fun acc (item : string * Z) =>
       if String.eqb k (fst item) then snd item else acc)
    sizes dflt.

Definition with_definition_size (b : Bucket) (sz : Z) : Bucket :=
  mkBucket (b_process_info b) (b_execution_count b)
    (b_total_execution_size b) (b_max_execution_size b) sz.

Definition no_executions_info (processes : dict ProcessInfo) (pid : string)
  : ProcessInfo :=
  match get pid processes with
  | Some pi => pi
  | None => mkProcessInfo pid "NO_EXECUTIONS_FOUND" "unknown" ""
  end.

Definition first_name (L : list ExecutionInfo) : string :=
  match L with
  | [] => ""
  | e :: _ => e_process_name e
  end.

Section Derived.

Variable hash : string -> Z.
Variable processes : dict ProcessInfo.

Section WithIndex.

Variable name_to_id : dict string.

(** The identifier an execution is filed under. *)
Definition bucket_key (e : ExecutionInfo) : string :=
  resolve hash name_to_id (e_process_name e).

(** The executions filed under [k], in input order. *)
Definition filed_under (k : string) (E : list ExecutionInfo) : list ExecutionInfo :=
  filter (fun e => String.eqb (bucket_key e) k) E.

(** The execution loop without the set of unknown names. *)
Definition run_executions (E : list ExecutionInfo) (d : dict Bucket) : dict Bucket :=
  fold_left (fun d e => record_execution processes (bucket_key e) e d) E d.

End WithIndex.

(** The [ProcessInfo] attached to the accumulator of key [k] whose first
    execution carries display name [name]. *)
Definition attached_info (k name : string) : ProcessInfo :=
  match get k processes with
  | Some pi => pi
  | None => mkProcessInfo k name "unknown" ""
  end.

(** The identifier under which [generate_execution_stats] files [e]. *)
Definition key_of (e : ExecutionInfo) : string :=
  bucket_key (create_process_name_to_id_mapping processes) e.

(** The executions filed under identifier [k]. *)
Definition executions_of (k : string) (E : list ExecutionInfo) : list ExecutionInfo :=
  filed_under (create_process_name_to_id_mapping processes) k E.

(** The element emitted for a bucket holding the executions [L] and the
    definition size [defsize]. *)
Definition summary (k : string) (L : list ExecutionInfo) (defsize : Z)
  : ExecutionStats :=
  mkExecutionStats
    (Some (attached_info k (first_name L)))
    (Z.of_nat (List.length L))
    (sum_Z (map size_bytes L) + defsize)
    (Z.max (max_from 0 (map size_bytes L)) defsize).

(** The statement that every execution whose display name is missing
    from the name index lands in a bucket of type "unknown". *)
Definition unresolved_is_unknown (process_sizes : dict Z)
    (executions : list ExecutionInfo) : Prop :=
  forall e, In e executions ->
    get (e_process_name e) (create_process_name_to_id_mapping processes) = None ->
    exists st pi,
      In (fallback_id hash (e_process_name e), st)
         (generate_execution_stats_items hash processes process_sizes executions)
      /\ process_info st = Some pi
      /\ process_type pi = "unknown".

End Derived.


(** A definition mapping one of whose keys is the fallback identifier of
    the name "X" under the stand-in hash. *)
Definition clash_processes : dict ProcessInfo :=
  [("unknown_process_88",
    mkProcessInfo "unknown_process_88" "Nightly Export" "process" "Ops")].
Definition clash_executions : list ExecutionInfo :=
  [mkExecutionInfo "execution-9" "X" "" 10 None].

(** The element the scenario yields for "Invoice Sync". *)
Definition invoice_stats : ExecutionStats :=
  mkExecutionStats
    (Some (mkProcessInfo "A1" "Invoice Sync" "process" "Finance")) 2 6000 3000.

(** A definition "B2" of 500 bytes that no execution refers to. *)
Definition idle_sizes : dict Z := [("A1", 1000); ("B2", 500)].

(** Two definitions that share one display name. *)
Definition twin_first : ProcessInfo := mkProcessInfo "A1" "Invoice Sync" "process" "Finance".
Definition twin_second : ProcessInfo := mkProcessInfo "B2" "Invoice Sync" "process" "Archive".
Definition twin_processes : dict ProcessInfo := [("A1", twin_first); ("B2", twin_second)].

(* ================================================================= *)
(** ** get_file_size_recursive *)

(** The file system is an input.  A call that the operating system can
    refuse returns [Fails msg]: an [OSError] (or its subclass
    [PermissionError]) carrying the message [msg]. *)
Inductive os_result (A : Type) : Type :=
| Done (a : A)
| Fails (msg : string).

Arguments Done {A} a.
Arguments Fails {A} msg.

(** An item produced by [path.rglob('*')], seen through the two calls the
    loop makes on it: [item.is_file()] and [item.stat().st_size]. *)
Record DirEntry : Type := mkDirEntry {
  entry_is_file : os_result bool;
  entry_st_size : os_result Z
}.

(** One step of the [rglob] generator: it yields an item or raises. *)
Inductive WalkEvent : Type :=
| Yield (item : DirEntry)
| WalkFails (msg : string).

(** A path as the scanner meets it: the outcomes of [path.exists()],
    [path.is_file()] and [path.stat().st_size] (each can be refused by the
    operating system; pathlib passes on every error but the few it reads
    as "not there") and the events of [path.rglob('*')].  [path_on_disk]
    tells whether the file system holds an entry under this name; no call
    reads it. *)
Record Path : Type := mkPath {
  path_str : string;
  path_on_disk : bool;
  path_exists : os_result bool;
  path_is_file : os_result bool;
  path_st_size : os_result Z;
  path_rglob : list WalkEvent
}.

(** Lines 83-85 inside the [try]: the running total when the loop ends,
    and the error that ended it, if any. *)
Fixpoint walk_loop (total_size : Z) (events : list WalkEvent)
  : Z * option string :=
  match events with
  | [] => (total_size, None)
  | WalkFails msg :: _ => (total_size, Some msg)
  | Yield item :: rest =>
      match entry_is_file item with
      | Fails msg => (total_size, Some msg)
      | Done false => walk_loop total_size rest
      | Done true =>
          match entry_st_size item with
          | Fails msg => (total_size, Some msg)
          | Done n => walk_loop (total_size + n) rest
          end
      end
  end.

Definition access_warning (path e : string) : string :=
  ("Warning: Could not access " ++ path ++ ": " ++ e)%string.

(** The returned value (or the exception that escapes) and the printed
    lines. *)
Definition get_file_size_recursive (path : Path) : result Z * list string :=
  match path_exists path with
  | Fails msg => (Raise (OSError msg), [])
  | Done false => (Ok 0, [])
  | Done true =>
      match path_is_file path with
      | Fails msg => (Raise (OSError msg), [])
      | Done true =>
          (match path_st_size path with
           | Done n => Ok n
           | Fails msg => Raise (OSError msg)
           end, [])
      | Done false =>
          let (total_size, err) := walk_loop 0 (path_rglob path) in
          match err with
          | None => (Ok total_size, [])
          | Some e => (Ok total_size, [access_warning (path_str path) e])
          end
      end
  end.

(** *** Vocabulary for statements about the walk *)

(** The error raised while handling one walk event, if any. *)
Definition event_error (ev : WalkEvent) : option string :=
  match ev with
  | WalkFails msg => Some msg
  | Yield item =>
      match entry_is_file item with
      | Fails msg => Some msg
      | Done false => None
      | Done true =>
          match entry_st_size item with
          | Fails msg => Some msg
          | Done _ => None
          end
      end
  end.

(** What an event adds to the total when it can be read: the size of an
    accessible regular file, and nothing otherwise. *)
Definition accessible_size (ev : WalkEvent) : Z :=
  match ev with
  | Yield (mkDirEntry (Done true) (Done n)) => n
  | _ => 0
  end.

(** The events handled before the first one that raises. *)
Fixpoint before_first_error (events : list WalkEvent) : list WalkEvent :=
  match events with
  | [] => []
  | ev :: rest =>
      match event_error ev with
      | Some _ => []
      | None => ev :: before_first_error rest
      end
  end.

Fixpoint first_error (events : list WalkEvent) : option string :=
  match events with
  | [] => None
  | ev :: rest =>
      match event_error ev with
      | Some e => Some e
      | None => first_error rest
      end
  end.

(** The total a walk would give if every failing entry were skipped and
    the walk went on. *)
Definition skip_and_continue_total (events : list WalkEvent) : Z :=
  sum_Z (map accessible_size events).

(** The statement that a failing entry is skipped and the walk goes on
    over the remaining entries. *)
Definition skips_only_failing_entry (path : Path) : Prop :=
  fst (get_file_size_recursive path)
  = Ok (skip_and_continue_total (path_rglob path)).

(** A directory holding a readable 10-byte file, an entry whose
    [is_file()] is refused, and a readable 20-byte file. *)
Definition locked_dir : Path :=
  mkPath "/opt/Boomi/atom/jmxDemo/execution/history/execution-7" true
    (Done true) (Done false) (Done 4096)
    [Yield (mkDirEntry (Done true) (Done 10));
     Yield (mkDirEntry (Fails "[Errno 13] Permission denied") (Fails "[Errno 13] Permission denied"));
     Yield (mkDirEntry (Done true) (Done 20))].







(* ================================================================= *)
(** ** Floats, the ExecutionStats properties and the CSV report *)

(** Every number below this bound in absolute value is within the range
    of a float. *)
Definition float_range : Z := 2 ^ 1023.

(** Python floats and the operations the program applies to them.
    [float_of_quotient a b] is [a / b] on integers with [b] non-zero,
    [float_div_int x n] is [x / n] with [n] non-zero.  [int_overflows n]
    tells that converting the integer [n] to a float raises
    [OverflowError], [quotient_overflows a b] that [a / b] does; neither
    happens within [float_range]. *)
Class PyFloat : Type := {
  float : Type;
  float_zero : float;
  float_of_int : Z -> float;
  float_of_quotient : Z -> Z -> float;
  float_div_int : float -> Z -> float;
  float_sub : float -> float -> float;
  int_overflows : Z -> bool;
  quotient_overflows : Z -> Z -> bool;
  int_in_range :
    forall n, Z.abs n < float_range -> int_overflows n = false;
  quotient_in_range :
    forall a b, Z.abs a < float_range * Z.abs b -> quotient_overflows a b = false
}.

(** Exact rationals cut off at twice [float_range]: an interpretation
    with the range of a float and without rounding, used to run the
    definitions on concrete inputs. *)
#[export] Instance QFloat : PyFloat.
Proof.
  refine {|
    float := Q;
    float_zero := 0%Q;
    float_of_int := inject_Z;
    float_of_quotient := fun a b => (inject_Z a / inject_Z b)%Q;
    float_div_int := fun x n => (x / inject_Z n)%Q;
    float_sub := Qminus;
    int_overflows := fun n => 2 * float_range <=? Z.abs n;
    quotient_overflows := fun a b => 2 * (float_range * Z.abs b) <=? Z.abs a;
    int_in_range := _;
    quotient_in_range := _
  |}.
  - intros n H. apply Z.leb_gt.
    assert (H0 : 0 < float_range) by reflexivity.
    revert H H0. generalize float_range. intros R H H0. lia.
  - intros a b H. apply Z.leb_gt.
    revert H. generalize (float_range * Z.abs b). intros X H.
    pose proof (Z.abs_nonneg a). lia.
Defined.

Section Report.

Context {F : PyFloat}.

(** [a / b] on two integers. *)
Definition int_truediv (a b : Z) : result float :=
  if b =? 0 then Raise ZeroDivisionError
  else if quotient_overflows a b then Raise OverflowError
  else Ok (float_of_quotient a b).

(** [x / n] with a float on the left. *)
Definition float_truediv (x : float) (n : Z) : result float :=
  if n =? 0 then Raise ZeroDivisionError
  else if int_overflows n then Raise OverflowError
  else Ok (float_div_int x n).

Definition total_size_mb (self : ExecutionStats) : result float :=
  int_truediv (total_size_bytes self) (1024 * 1024).

Definition avg_size_mb (self : ExecutionStats) : result float :=
  if execution_count self =? 0 then Ok float_zero
  else t <- total_size_mb self ;; float_truediv t (execution_count self).

Definition max_size_mb (self : ExecutionStats) : result float :=
  int_truediv (max_size_bytes self) (1024 * 1024).

(** Values that reach the CSV writer or come out of an attribute. *)
Inductive value : Type :=
| VStr (s : string)
| VInt (n : Z)
| VFloat (x : float)
| VInfo (info : option ProcessInfo).

(** [getattr(stats, name)]: the four dataclass fields and the three
    properties; any other name raises [AttributeError]. *)
Definition getattr (stats : ExecutionStats) (name : string) : result value :=
  if String.eqb name "process_info" then Ok (VInfo (process_info stats))
  else if String.eqb name "execution_count" then Ok (VInt (execution_count stats))
  else if String.eqb name "total_size_bytes" then Ok (VInt (total_size_bytes stats))
  else if String.eqb name "max_size_bytes" then Ok (VInt (max_size_bytes stats))
  else if String.eqb name "total_size_mb" then x <- total_size_mb stats ;; Ok (VFloat x)
  else if String.eqb name "avg_size_mb" then x <- avg_size_mb stats ;; Ok (VFloat x)
  else if String.eqb name "max_size_mb" then x <- max_size_mb stats ;; Ok (VFloat x)
  else Raise (AttributeError name).

(** [hasattr] is [getattr] that did not raise. *)
Definition hasattr (stats : ExecutionStats) (name : string) : bool :=
  match getattr stats name with
  | Ok _ => true
  | Raise _ => false
  end.

(** [x - v] with a float on the left. *)
Definition float_minus (x : float) (v : value) : result value :=
  match v with
  | VFloat y => Ok (VFloat (float_sub x y))
  | VInt n =>
      if int_overflows n then Raise OverflowError
      else Ok (VFloat (float_sub x (float_of_int n)))
  | VStr _ | VInfo _ => Raise TypeError
  end.

(** [stats.process_info.<field>] *)
Definition info_field (stats : ExecutionStats) (field : ProcessInfo -> string)
    (name : string) : result value :=
  match process_info stats with
  | Some info => Ok (VStr (field info))
  | None => Raise (AttributeError name)
  end.

Definition csv_header : list value :=
  [VStr "Process Name"; VStr "Process ID"; VStr "Process Type";
   VStr "Folder Path"; VStr "Execution Count"; VStr "Total Size (Bytes)";
   VStr "Total Size (MB)"; VStr "Average Size (MB)"; VStr "Max Size (MB)";
   VStr "Process Definition Size (MB)"; VStr "Execution Logs Size (MB)"].

(** Lines 467-488: the data row of one element. *)
Definition csv_row (stats : ExecutionStats) : result (list value) :=
  let definition_size_mb := VInt 0 in
  execution_size_mb <- total_size_mb stats ;;
  sizes <-
    (if hasattr stats "process_definition_size_mb" then
       d <- getattr stats "process_definition_size_mb" ;;
       t <- total_size_mb stats ;;
       e <- float_minus t d ;;
       Ok (d, e)
     else Ok (definition_size_mb, VFloat execution_size_mb)) ;;
  name <- info_field stats process_name "process_name" ;;
  pid <- info_field stats process_id "process_id" ;;
  type <- info_field stats process_type "process_type" ;;
  folder <- info_field stats folder_name "folder_name" ;;
  total_mb <- total_size_mb stats ;;
  avg_mb <- avg_size_mb stats ;;
  max_mb <- max_size_mb stats ;;
  Ok [name; pid; type; folder;
      VInt (execution_count stats); VInt (total_size_bytes stats);
      VFloat total_mb; VFloat avg_mb; VFloat max_mb;
      fst sizes; snd sizes].

(** Lines 466-488: the rows the writer took so far and how the loop
    ended.  [writerow n] is the outcome of the call of [writer.writerow]
    made when [n] rows are in the file. *)
Fixpoint write_rows (writerow : nat -> os_result unit)
    (stats_list : list ExecutionStats) (written : list (list value))
  : list (list value) * result unit :=
  match stats_list with
  | [] => (written, Ok tt)
  | stats :: rest =>
      match csv_row stats with
      | Ok row =>
          match writerow (List.length written) with
          | Done _ => write_rows writerow rest (written ++ [row])
          | Fails msg => (written, Raise (OSError msg))
          end
      | Raise e => (written, Raise e)
      end
  end.

(** What [open(csv_path, 'w', ...)] does: it opens the file, the
    operating system refuses ([OSError]), or the name is turned down before
    the operating system sees it ([ValueError], as for a name with a NUL
    character). *)
Inductive open_outcome : Type :=
| Opened
| OpenRefused (msg : string)
| OpenRejected (msg : string).

(** The file a report goes to: the name passed to the function, what
    [csv_path.absolute()] gives for it, the outcome of [open], the
    outcome of the [writerow] call made when [n] rows are in the file (the
    header is written with none in it; the operating system can refuse
    when the buffer is flushed) and the outcome of closing the file. *)
Record OutputFile : Type := mkOutputFile {
  file_name : string;
  file_absolute : string;
  file_open : open_outcome;
  file_writerow : nat -> os_result unit;
  file_close : os_result unit
}.

(** Leaving the [with] block closes the file; an error raised by the
    close takes the place of the exception on its way out, if any. *)
Definition leave_with (filename : OutputFile) (outcome : result unit)
  : result unit :=
  match file_close filename with
  | Fails msg => Raise (OSError msg)
  | Done _ => outcome
  end.

(** The rows the writer took, the outcome of the call and the printed
    lines. *)
Definition write_csv_report (stats_list : list ExecutionStats)
    (filename : OutputFile)
  : list (list value) * result unit * list string :=
  match file_open filename with
  | OpenRefused msg => ([], Raise (OSError msg), [])
  | OpenRejected msg => ([], Raise (ValueError msg), [])
  | Opened =>
      let (rows, outcome) :=
        match file_writerow filename 0 with
        | Fails msg => ([], Raise (OSError msg))
        | Done _ => write_rows (file_writerow filename) stats_list [csv_header]
        end in
      match leave_with filename outcome with
      | Ok _ =>
          (rows, Ok tt,
           [""; ("Detailed CSV report written to: " ++ file_absolute filename)%string])
      | Raise e => (rows, Raise e, [])
      end
  end.

(** The byte figures of an element are within the range of a float. *)
Definition sizes_fit_float (stats : ExecutionStats) : Prop :=
  Z.abs (total_size_bytes stats) < float_range * 1048576
  /\ Z.abs (max_size_bytes stats) < float_range * 1048576
  /\ Z.abs (execution_count stats) < float_range.

(** The file opens, takes every row and closes. *)
Definition file_is_writable (filename : OutputFile) : Prop :=
  file_open filename = Opened
  /\ (forall n, file_writerow filename n = Done tt)
  /\ file_close filename = Done tt.

(** The definition size in megabytes of the process with identifier
    [pid], as the definition-size loop recorded it. *)
Definition definition_size_mb_of (process_sizes : dict Z) (pid : string)
  : result float :=
  int_truediv (get_default pid 0 process_sizes) (1024 * 1024).

End Report.

Definition report_file : OutputFile :=
  mkOutputFile "boomi_log_space_report.csv"
    "/home/boomi/boomi_log_space_report.csv" Opened (fun _ => Done tt) (Done tt).

(** An element whose total does not fit a float. *)
Definition huge_stats : ExecutionStats :=
  mkExecutionStats
    (Some (mkProcessInfo "A1" "Invoice Sync" "process" "Finance")) 1 (10 ^ 400) 0.

(* ================================================================= *)
(** ** Vocabulary for the order and the totals of the emitted list *)

(** The distinct elements of [l], each at the place of its first
    occurrence. *)
Definition first_occurrences (l : list string) : list string :=
  fold_left (fun acc x => set_add x acc) l [].

(** The emitted list written out bucket by bucket: the identifiers in
    order of first appearance among the executions, each with the summary
    of the executions filed under it. *)
Definition expected_items (hash : string -> Z) (processes : dict ProcessInfo)
    (process_sizes : dict Z) (executions : list ExecutionInfo)
  : list (string * ExecutionStats) :=
  map (fun k =>
         (k, summary processes k (executions_of hash processes k executions)
               (last_size 0 k process_sizes)))
      (first_occurrences (map (key_of hash processes) executions)).

(** The display names the execution loop files under a fallback
    identifier. *)
Definition is_unresolved (processes : dict ProcessInfo) (name : string) : bool :=
  String.eqb (get_default name "" (create_process_name_to_id_mapping processes)) "".

(* ================================================================= *)
(** ** Strings: the [str] methods the loaders use

    Characters are code points below 256. *)

(** [pat in s] *)
Fixpoint contains (pat s : string) : bool :=
  String.prefix pat s ||
  match s with
  | EmptyString => false
  | String _ rest => contains pat rest
  end.

(** [s.replace(old, new)] for a non-empty [old], as in both uses: the
    occurrences of [old] are replaced from left to right without overlap.
    [skip] counts the characters of a matched occurrence still to drop. *)
Fixpoint replace_from (old new : string) (skip : nat) (s : string) : string :=
  match s with
  | EmptyString => EmptyString
  | String c rest =>
      match skip with
      | S n => replace_from old new n rest
      | O =>
          if String.prefix old s
          then (new ++ replace_from old new (String.length old - 1) rest)%string
          else String c (replace_from old new 0 rest)
      end
  end.

Definition replace (old new s : string) : string := replace_from old new 0 s.

(** [c.isspace()] *)
Definition is_space (c : ascii) : bool :=
  let n := nat_of_ascii c in
  ((9 <=? n) && (n <=? 13) || (28 <=? n) && (n <=? 32)
   || (n =? 133) || (n =? 160))%nat.

Fixpoint drop_spaces (l : list ascii) : list ascii :=
  match l with
  | [] => []
  | c :: rest => if is_space c then drop_spaces rest else l
  end.

(** [s.strip()] *)
Definition strip (s : string) : string :=
  string_of_list_ascii
    (rev (drop_spaces (rev (drop_spaces (list_ascii_of_string s))))).

(* ================================================================= *)
(** ** XML documents as ElementTree presents them *)

#[warnings="-register-all"]
Inductive Element : Type :=
| Elem (tag : string) (attrib : dict string) (text : option string)
       (children : list Element).

Definition elem_tag (e : Element) : string :=
  match e with Elem t _ _ _ => t end.
Definition elem_attrib (e : Element) : dict string :=
  match e with Elem _ a _ _ => a end.
Definition elem_text (e : Element) : option string :=
  match e with Elem _ _ x _ => x end.
Definition elem_children (e : Element) : list Element :=
  match e with Elem _ _ _ c => c end.

(** The elements below [e], in document order ([e] itself left out). *)
Fixpoint descendants (e : Element) : list Element :=
  match e with
  | Elem _ _ _ cs =>
      (fix walk (l : list Element) : list Element :=
         match l with
         | [] => []
         | c :: rest => (c :: descendants c) ++ walk rest
         end) cs
  end.

(** [root.findall('.//tag')] *)
Definition findall_descendants (tag : string) (root : Element) : list Element :=
  filter (fun e => String.eqb (elem_tag e) tag) (descendants root).

(** [root.find('.//tag')] *)
Definition find_descendant (tag : string) (root : Element) : option Element :=
  find (fun e => String.eqb (elem_tag e) tag) (descendants root).

(** [root.find('.//tag[@a]')] *)
Definition find_descendant_with (tag a : string) (root : Element) : option Element :=
  find (fun e => String.eqb (elem_tag e) tag && mem a (elem_attrib e))
    (descendants root).

(** [e.find('tag')]: the first child with that tag. *)
Definition find_child (tag : string) (e : Element) : option Element :=
  find (fun c => String.eqb (elem_tag c) tag) (elem_children e).

(** [elem.text or ""] *)
Definition text_or_empty (e : Element) : string :=
  match elem_text e with
  | Some t => t
  | None => ""
  end.

(** The three exceptions the loaders catch around [ET.parse]. *)
Inductive parse_failure : Type :=
| ParseError (msg : string)
| FileNotFoundError (msg : string)
| PermissionError (msg : string).

Definition failure_message (f : parse_failure) : string :=
  match f with
  | ParseError msg | FileNotFoundError msg | PermissionError msg => msg
  end.

(** What [ET.parse] does on a file: it returns a tree, raises one of the
    caught exceptions, or raises something else. *)
Inductive parse_outcome : Type :=
| Parsed (root : Element)
| ParseFails (f : parse_failure)
| ParseRaises (e : exn).

Record XmlFile : Type := mkXmlFile {
  xml_path : string;
  xml_parse : parse_outcome
}.

(* ================================================================= *)
(** ** parse_process_xml *)

(** Lines 100-130: the record read off a parsed tree. *)
Definition process_info_of_root (root : Element) : ProcessInfo :=
  let process_id :=
    match find_descendant "Id" root with
    | Some id_elem => text_or_empty id_elem
    | None => ""
    end in
  let process_name :=
    match find_descendant "Name" root with
    | Some name_elem => text_or_empty name_elem
    | None => ""
    end in
  let process_type :=
    match find_descendant "Type" root with
    | Some type_elem => text_or_empty type_elem
    | None => ""
    end in
  let folder_name :=
    match find_descendant_with "FolderId" "name" root with
    | Some folder_elem => get_default "name" "" (elem_attrib folder_elem)
    | None => ""
    end in
  mkProcessInfo process_id process_name process_type folder_name.

Definition parse_process_xml (file : XmlFile)
  : result (option ProcessInfo) * list string :=
  match xml_parse file with
  | Parsed root => (Ok (Some (process_info_of_root root)), [])
  | ParseFails f =>
      (Ok None,
       [("Warning: Could not parse process XML " ++ xml_path file ++ ": "
         ++ failure_message f)%string])
  | ParseRaises e => (Raise e, [])
  end.

(* ================================================================= *)
(** ** load_process_mapping and analyze_process_directories *)

Definition PROCESSES_DIR : string := "/opt/Boomi/atom/jmxDemo/processes".
Definition EXECUTION_DIR : string := "/opt/Boomi/atom/jmxDemo/execution".

(** A child of the processes directory: its name, the outcome of
    [is_dir()], the outcome of [main_xml.exists()] followed by that of
    parsing the file ([Done None] when the file does not exist, [Fails]
    when [exists()] itself is refused) and the directory as the size
    scanner sees it. *)
Record ProcessDir : Type := mkProcessDir {
  pd_name : string;
  pd_is_dir : os_result bool;
  pd_main_xml : os_result (option parse_outcome);
  pd_path : Path
}.

(** The processes directory: the outcome of [processes_path.exists()]
    and of listing it. *)
Record ProcessesRoot : Type := mkProcessesRoot {
  root_exists : os_result bool;
  root_iterdir : os_result (list ProcessDir)
}.

(** [len(d.name) == 36 and '-' in d.name] *)
Definition has_process_name (d : ProcessDir) : bool :=
  (String.length (pd_name d) =? 36)%nat && contains "-" (pd_name d).

(** The entries the comprehension keeps:
    [d.is_dir() and len(d.name) == 36 and '-' in d.name] is true. *)
Definition is_process_dir (d : ProcessDir) : bool :=
  match pd_is_dir d with
  | Done true => has_process_name d
  | _ => false
  end.

(** Lines 148-149 and 286-287: the list comprehension; [is_dir()] is
    called on every entry and the first refusal ends it. *)
Fixpoint select_process_dirs (entries : list ProcessDir)
  : os_result (list ProcessDir) :=
  match entries with
  | [] => Done []
  | d :: rest =>
      match pd_is_dir d with
      | Fails msg => Fails msg
      | Done b =>
          match select_process_dirs rest with
          | Fails msg => Fails msg
          | Done kept => Done (if b && has_process_name d then d :: kept else kept)
          end
      end
  end.

(** [process_dir / f"{process_id}.xml"] *)
Definition main_xml_path (name : string) : string :=
  (PROCESSES_DIR ++ "/" ++ name ++ "/" ++ name ++ ".xml")%string.

Definition count_str {A : Type} (l : list A) : string :=
  str_of_Z (Z.of_nat (List.length l)).

(** Lines 153-163: the loop over the process directories. *)
Fixpoint load_loop (process_dirs : list ProcessDir)
    (processes : dict ProcessInfo) (out : list string)
  : result (dict ProcessInfo) * list string :=
  match process_dirs with
  | [] => (Ok processes, out)
  | process_dir :: rest =>
      let dir_name := pd_name process_dir in
      match pd_main_xml process_dir with
      | Fails msg => (Raise (OSError msg), out)
      | Done (Some outcome) =>
          match parse_process_xml (mkXmlFile (main_xml_path dir_name) outcome) with
          | (Ok (Some process_info), printed) =>
              if String.eqb (process_id process_info) ""
              then load_loop rest processes (out ++ printed)
              else load_loop rest
                     (set (process_id process_info) process_info processes)
                     (out ++ printed)
          | (Ok None, printed) => load_loop rest processes (out ++ printed)
          | (Raise e, printed) => (Raise e, out ++ printed)
          end
      | Done None =>
          load_loop rest processes
            (out ++ [("Warning: Main XML file not found for process "
                      ++ dir_name)%string])
      end
  end.

(** Lines 143-151 and 281-289, common to both functions: the process
    directories, or the way the function ends before its loop. *)
Definition list_process_dirs (root : ProcessesRoot)
  : os_result (option (list ProcessDir)) :=
  match root_exists root with
  | Fails msg => Fails msg
  | Done false => Done None
  | Done true =>
      match root_iterdir root with
      | Fails msg => Fails msg
      | Done entries =>
          match select_process_dirs entries with
          | Fails msg => Fails msg
          | Done process_dirs => Done (Some process_dirs)
          end
      end
  end.

Definition load_process_mapping (root : ProcessesRoot)
  : result (dict ProcessInfo) * list string :=
  match list_process_dirs root with
  | Fails msg => (Raise (OSError msg), [])
  | Done None =>
      (Ok [], [("Warning: Processes directory not found: " ++ PROCESSES_DIR)%string])
  | Done (Some process_dirs) =>
      let (r, out) :=
        load_loop process_dirs []
          [("Loading " ++ count_str process_dirs ++ " process directories...")%string] in
      match r with
      | Ok processes =>
          (Ok processes,
           out ++ [("Loaded " ++ count_str processes ++ " process definitions")%string])
      | Raise e => (Raise e, out)
      end
  end.

(** Lines 291-296: the loop over the process directories. *)
Fixpoint sizes_loop (process_dirs : list ProcessDir)
    (process_sizes : dict Z) (out : list string)
  : result (dict Z) * list string :=
  match process_dirs with
  | [] => (Ok process_sizes, out)
  | process_dir :: rest =>
      match get_file_size_recursive (pd_path process_dir) with
      | (Ok dir_size, printed) =>
          sizes_loop rest (set (pd_name process_dir) dir_size process_sizes)
            (out ++ printed)
      | (Raise e, printed) => (Raise e, out ++ printed)
      end
  end.

Definition analyze_process_directories (root : ProcessesRoot)
  : result (dict Z) * list string :=
  match list_process_dirs root with
  | Fails msg => (Raise (OSError msg), [])
  | Done None =>
      (Ok [], [("Warning: Processes directory not found: " ++ PROCESSES_DIR)%string])
  | Done (Some process_dirs) =>
      sizes_loop process_dirs []
        [("Analyzing " ++ count_str process_dirs ++ " process directories...")%string]
  end.

(* ================================================================= *)
(** ** parse_execution_log and analyze_execution_history *)

(** An execution directory: its name, its path as printed, the outcome
    of lines 174-179, the search for its [process_log.xml] and the parse
    ([None] when [exists()] returns [False]; a refusal of [exists()] is
    among the failures, caught when it is a [PermissionError]) and the
    events of walking it. *)
Record ExecutionDir : Type := mkExecutionDir {
  ed_name : string;
  ed_path : string;
  ed_process_log : option parse_outcome;
  ed_rglob : list WalkEvent
}.

(** The directory as the size scanner sees it.  The scanner is reached
    only after [process_log.xml] was found inside the directory, so the
    path exists and is not a regular file. *)
Definition ed_scan_path (d : ExecutionDir) : Path :=
  mkPath (ed_path d) true (Done true) (Done false) (Fails "Is a directory")
    (ed_rglob d).

(** Lines 182-190: the first log event whose message mentions
    "Executing Process" gives the name, also when the name comes out
    empty. *)
Fixpoint find_process_name (log_events : list Element) : string :=
  match log_events with
  | [] => ""
  | log_event :: rest =>
      match find_child "Message" log_event with
      | Some message_elem =>
          match elem_text message_elem with
          | Some message =>
              if negb (String.eqb message "") && contains "Executing Process" message
              then strip (replace "Executing Process " "" message)
              else find_process_name rest
          | None => find_process_name rest
          end
      | None => find_process_name rest
      end
  end.

(** Lines 205-209: the value of [time_attr] after the loop. *)
Fixpoint find_time_attr (log_events : list Element) (time_attr : option string)
  : option string :=
  match log_events with
  | [] => time_attr
  | log_event :: rest =>
      match get "time" (elem_attrib log_event) with
      | Some t => if String.eqb t "" then find_time_attr rest (Some t) else Some t
      | None => find_time_attr rest None
      end
  end.

Section ExecutionLoader.

(** [datetime.fromisoformat]; [None] stands for the [ValueError] it
    raises on text it does not accept. *)
Variable fromisoformat : string -> option datetime.

(** Lines 202-214. *)
Definition parse_timestamp (root : Element) : option datetime :=
  match find_time_attr (findall_descendants "LogEvent" root) None with
  | Some time_attr =>
      if String.eqb time_attr "" then None
      else fromisoformat (replace "Z" "+00:00" time_attr)
  | None => None
  end.

Definition parse_execution_log (execution_dir : ExecutionDir)
  : result (option ExecutionInfo) * list string :=
  match ed_process_log execution_dir with
  | None => (Ok None, [])
  | Some (ParseRaises e) => (Raise e, [])
  | Some (ParseFails f) =>
      (Ok None,
       [("Warning: Could not parse execution log " ++ ed_path execution_dir
         ++ ": " ++ failure_message f)%string])
  | Some (Parsed root) =>
      let process_name := find_process_name (findall_descendants "LogEvent" root) in
      if String.eqb process_name "" then (Ok None, [])
      else
        match get_file_size_recursive (ed_scan_path execution_dir) with
        | (Raise e, printed) => (Raise e, printed)
        | (Ok size_bytes, printed) =>
            (Ok (Some (mkExecutionInfo (ed_name execution_dir) process_name ""
                         size_bytes (parse_timestamp root))),
             printed)
        end
  end.

(** An item matched by [history_path.rglob("execution-*")], with the
    outcome of [item.is_dir()]. *)
Record HistoryItem : Type := mkHistoryItem {
  hi_is_dir : os_result bool;
  hi_dir : ExecutionDir
}.

(** The outcomes of [execution_path.exists()], [history_path.exists()]
    and of the walk of the history directory. *)
Record ExecutionRoot : Type := mkExecutionRoot {
  execution_exists : os_result bool;
  history_exists : os_result bool;
  history_rglob : os_result (list HistoryItem)
}.

(** The matches the loop keeps: [item.is_dir()] is true. *)
Definition is_execution_dir (item : HistoryItem) : bool :=
  match hi_is_dir item with
  | Done true => true
  | _ => false
  end.

(** Lines 256-259: [is_dir()] is called on every match and the first
    refusal ends the loop. *)
Fixpoint select_execution_dirs (items : list HistoryItem)
  : os_result (list ExecutionDir) :=
  match items with
  | [] => Done []
  | item :: rest =>
      match hi_is_dir item with
      | Fails msg => Fails msg
      | Done b =>
          match select_execution_dirs rest with
          | Fails msg => Fails msg
          | Done kept => Done (if b then hi_dir item :: kept else kept)
          end
      end
  end.

(** Lines 263-266: the loop over the execution directories. *)
Fixpoint history_loop (execution_dirs : list ExecutionDir)
    (executions : list ExecutionInfo) (out : list string)
  : result (list ExecutionInfo) * list string :=
  match execution_dirs with
  | [] => (Ok executions, out)
  | execution_dir :: rest =>
      match parse_execution_log execution_dir with
      | (Ok (Some execution_info), printed) =>
          history_loop rest (executions ++ [execution_info]) (out ++ printed)
      | (Ok None, printed) => history_loop rest executions (out ++ printed)
      | (Raise e, printed) => (Raise e, out ++ printed)
      end
  end.

Definition analyze_execution_history (root : ExecutionRoot)
  : result (list ExecutionInfo) * list string :=
  match execution_exists root with
  | Fails msg => (Raise (OSError msg), [])
  | Done false =>
      (Ok [], [("Warning: Execution directory not found: " ++ EXECUTION_DIR)%string])
  | Done true =>
      match history_exists root with
      | Fails msg => (Raise (OSError msg), [])
      | Done false =>
          (Ok [],
           [("Warning: Execution history directory not found: " ++ EXECUTION_DIR
             ++ "/history")%string])
      | Done true =>
          match history_rglob root with
          | Fails msg => (Raise (OSError msg), [])
          | Done items =>
              match select_execution_dirs items with
              | Fails msg => (Raise (OSError msg), [])
              | Done execution_dirs =>
                  history_loop execution_dirs []
                    [("Analyzing " ++ count_str execution_dirs
                      ++ " execution history directories...")%string]
              end
          end
      end
  end.

End ExecutionLoader.

(** *** Sample inputs for the loaders *)

Definition sample_process_root : Element :=
  Elem "Component" [] None
    [Elem "Id" [] (Some "0a1b2c3d-1111-2222-3333-444455556666") [];
     Elem "Name" [] (Some "Invoice Sync") [];
     Elem "Type" [] (Some "process") [];
     Elem "FolderId" [("name", "Finance")] (Some "42") []].

Definition sample_process_dir : ProcessDir :=
  mkProcessDir "0a1b2c3d-1111-2222-3333-444455556666" (Done true)
    (Done (Some (Parsed sample_process_root)))
    (mkPath "/opt/Boomi/atom/jmxDemo/processes/0a1b2c3d-1111-2222-3333-444455556666"
       true (Done true) (Done false) (Done 4096)
       [Yield (mkDirEntry (Done true) (Done 1000))]).

Definition broken_process_dir : ProcessDir :=
  mkProcessDir "ffffffff-1111-2222-3333-444455556666" (Done true)
    (Done (Some (ParseFails (ParseError "syntax error: line 1, column 0"))))
    (mkPath "/opt/Boomi/atom/jmxDemo/processes/ffffffff-1111-2222-3333-444455556666"
       true (Done true) (Done false) (Done 4096) []).

Definition sample_processes_root : ProcessesRoot :=
  mkProcessesRoot (Done true) (Done [sample_process_dir; broken_process_dir]).

Definition sample_log_root : Element :=
  Elem "ProcessLog" [] None
    [Elem "LogEvent" [("time", "2026-02-01T10:00:00Z")] None
       [Elem "Message" [] (Some "Executing Process Invoice Sync ") []];
     Elem "LogEvent" [] None
       [Elem "Message" [] (Some "Shape executed") []]].

Definition sample_execution_dir : ExecutionDir :=
  mkExecutionDir "execution-1"
    "/opt/Boomi/atom/jmxDemo/execution/history/2026.02.01/execution-1"
    (Some (Parsed sample_log_root))
    [Yield (mkDirEntry (Done true) (Done 2000))].

Definition sample_execution_root : ExecutionRoot :=
  mkExecutionRoot (Done true) (Done true)
    (Done [mkHistoryItem (Done true) sample_execution_dir;
           mkHistoryItem (Done false) sample_execution_dir]).

(** *** Vocabulary for statements about the loaders *)

(** The definition a process directory contributes: its main XML file
    parsed and carries a non-empty identifier. *)
Definition loaded_info (d : ProcessDir) : option ProcessInfo :=
  match pd_main_xml d with
  | Done (Some (Parsed root)) =>
      let info := process_info_of_root root in
      if String.eqb (process_id info) "" then None else Some info
  | _ => None
  end.

Definition add_loaded (processes : dict ProcessInfo) (d : ProcessDir)
  : dict ProcessInfo :=
  match loaded_info d with
  | Some info => set (process_id info) info processes
  | None => processes
  end.

(** A string without white space at either end. *)
Definition trimmed (s : string) : Prop := strip s = s.

(* ================================================================= *)
(** ** Lemmas on dictionaries *)

Section DictFacts.

Context {V : Type}.
Implicit Types (d : dict V) (k : string) (v : V).

Lemma get_none_iff k d : get k d = None <-> ~ In k (keys d).
Proof.
  induction d as [|[k' v'] r IH]; simpl.
  - tauto.
  - destruct (String.eqb_spec k k') as [->|Hne].
    + split; [discriminate | intros H; exfalso; apply H; now left].
    + rewrite IH. split; [intros H [E|I]; [congruence | tauto] | tauto].
Qed.

Lemma mem_true_iff k d : mem k d = true <-> In k (keys d).
Proof.
  unfold mem. destruct (get k d) eqn:G.
  - split; [intros _ | reflexivity].
    destruct (in_dec string_dec k (keys d)) as [I|N]; [exact I|].
    apply get_none_iff in N. congruence.
  - split; [discriminate|]. intros I. apply get_none_iff in G. tauto.
Qed.

Lemma get_some_in k v d : get k d = Some v -> In (k, v) d.
Proof.
  induction d as [|[k' v'] r IH]; simpl; [discriminate|].
  destruct (String.eqb_spec k k') as [->|Hne].
  - intros [= ->]. now left.
  - intros G. right. auto.
Qed.

Lemma in_get_wf k v d : wf d -> In (k, v) d -> get k d = Some v.
Proof.
  unfold wf. induction d as [|[k' v'] r IH]; simpl; [tauto|].
  intros W [E|I].
  - injection E as -> ->. now rewrite String.eqb_refl.
  - inversion W as [|? ? Hn Hr]; subst.
    destruct (String.eqb_spec k k') as [->|Hne].
    + exfalso. apply Hn. change k' with (fst (k', v)). now apply in_map.
    + auto.
Qed.

Lemma get_set_same k v d : get k (set k v d) = Some v.
Proof.
  induction d as [|[k' v'] r IH]; simpl.
  - now rewrite String.eqb_refl.
  - destruct (String.eqb_spec k k') as [->|Hne]; simpl.
    + now rewrite String.eqb_refl.
    + destruct (String.eqb_spec k k'); [contradiction | exact IH].
Qed.

Lemma get_set_other k k0 v d : k0 <> k -> get k0 (set k v d) = get k0 d.
Proof.
  intros Hne. induction d as [|[k' v'] r IH]; simpl.
  - destruct (String.eqb_spec k0 k); [contradiction | reflexivity].
  - destruct (String.eqb_spec k k') as [->|Hne']; simpl.
    + destruct (String.eqb_spec k0 k'); [contradiction | reflexivity].
    + now rewrite IH.
Qed.

Lemma get_set k k0 v d :
  get k0 (set k v d) = if String.eqb k0 k then Some v else get k0 d.
Proof.
  destruct (String.eqb_spec k0 k) as [->|Hne].
  - apply get_set_same.
  - now apply get_set_other.
Qed.

Lemma keys_set k v d :
  keys (set k v d) = if mem k d then keys d else keys d ++ [k].
Proof.
  unfold mem. induction d as [|[k' v'] r IH]; simpl; [reflexivity|].
  destruct (String.eqb_spec k k') as [->|Hne]; simpl; [reflexivity|].
  rewrite IH. now destruct (get k r).
Qed.

Lemma wf_set k v d : wf d -> wf (set k v d).
Proof.
  unfold wf. intros W. rewrite keys_set.
  destruct (mem k d) eqn:M; [exact W|].
  assert (N : ~ In k (keys d)).
  { intros I. apply mem_true_iff in I. congruence. }
  clear M. induction (keys d) as [|x l IH]; simpl.
  - constructor; [tauto | constructor].
  - inversion W; subst. constructor.
    + rewrite in_app_iff. simpl. intros [I|[E|[]]]; [tauto|].
      apply N. now left.
    + apply IH; [assumption|]. intros I. apply N. now right.
Qed.

Lemma in_keys_set k k0 v d :
  In k0 (keys (set k v d)) <-> k0 = k \/ In k0 (keys d).
Proof.
  rewrite keys_set. destruct (mem k d) eqn:M.
  - apply mem_true_iff in M. split; [tauto|]. intros [->|I]; assumption.
  - rewrite in_app_iff. simpl. split; [intros [I|[E|[]]]; auto | ].
    intros [->|I]; auto.
Qed.

End DictFacts.

(* ================================================================= *)
(** ** Sums and running maxima *)

Lemma fold_add_sum l a : fold_left Z.add l a = a + sum_Z l.
Proof.
  revert a. induction l as [|x l IH]; intros a; simpl; [lia|].
  rewrite IH. lia.
Qed.



Lemma max_from_ge_start l a : a <= max_from a l.
Proof.
  unfold max_from. revert a. induction l as [|x l IH]; intros a; simpl; [lia|].
  specialize (IH (Z.max a x)). lia.
Qed.

Lemma max_from_upper l a x : In x l -> x <= max_from a l.
Proof.
  unfold max_from. revert a. induction l as [|y l IH]; intros a; simpl; [tauto|].
  intros [->|I].
  - pose proof (max_from_ge_start l (Z.max a x)) as H. unfold max_from in H. lia.
  - now apply IH.
Qed.

Lemma max_from_attained l a : max_from a l = a \/ In (max_from a l) l.
Proof.
  unfold max_from. revert a. induction l as [|y l IH]; intros a; simpl; [now left|].
  destruct (IH (Z.max a y)) as [E|I]; [|now right; right].
  rewrite E. destruct (Z.max_spec a y) as [[_ ->]|[_ ->]]; [right; now left | now left].
Qed.

(** On a non-empty list of non-negative sizes the running maximum from 0
    is the largest element. *)
Lemma max_from_0_largest l :
  l <> [] -> Forall (fun x => 0 <= x) l ->
  In (max_from 0 l) l /\ forall x, In x l -> x <= max_from 0 l.
Proof.
  intros Hne Hpos. split; [|intros x; apply max_from_upper].
  destruct (max_from_attained l 0) as [E|I]; [|exact I].
  destruct l as [|y l]; [congruence|].
  assert (Hy : y <= max_from 0 (y :: l)) by (apply max_from_upper; now left).
  inversion Hpos; subst.
  assert (y = 0) by lia. subst y. rewrite E. now left.
Qed.

(* ================================================================= *)
(** ** The execution loop *)

Section EngineFacts.

Variable hash : string -> Z.
Variable processes : dict ProcessInfo.
Variable name_to_id : dict string.

Local Notation bucket_key := (bucket_key hash name_to_id).
Local Notation filed_under := (filed_under hash name_to_id).
Local Notation run_executions := (run_executions hash processes name_to_id).
Local Notation attached_info := (attached_info processes).


Lemma fst_fold_execution_step E d u :
  fst (fold_left (execution_step hash processes name_to_id) E (d, u))
  = run_executions E d.
Proof.
  unfold run_executions. revert d u.
  induction E as [|e E IH]; intros d u; simpl; [reflexivity|].
  apply IH.
Qed.

Lemma get_record_execution k pid e d :
  get k (record_execution processes pid e d)
  = if String.eqb k pid
    then Some (update_bucket processes pid (get_default pid default_bucket d) e)
    else get k d.
Proof.
  unfold record_execution, getitem_default, get_default.
  destruct (get pid d) as [b|] eqn:G; rewrite get_set;
    destruct (String.eqb_spec k pid) as [->|Hne]; try reflexivity.
  now apply get_set_other.
Qed.

Lemma in_keys_record_execution k pid e d :
  In k (keys (record_execution processes pid e d)) <-> k = pid \/ In k (keys d).
Proof.
  unfold record_execution, getitem_default.
  destruct (get pid d) as [b|] eqn:G; rewrite in_keys_set.
  - tauto.
  - rewrite in_keys_set. tauto.
Qed.

Lemma wf_record_execution pid e d : wf d -> wf (record_execution processes pid e d).
Proof.
  intros W. unfold record_execution, getitem_default.
  destruct (get pid d); repeat apply wf_set; exact W.
Qed.

Lemma wf_run_executions E d : wf d -> wf (run_executions E d).
Proof.
  unfold run_executions. revert d.
  induction E as [|e E IH]; intros d W; simpl; [exact W|].
  apply IH. now apply wf_record_execution.
Qed.

Lemma in_keys_run_executions k E d :
  In k (keys (run_executions E d)) <-> In k (keys d) \/ In k (map bucket_key E).
Proof.
  unfold run_executions. revert d.
  induction E as [|e E IH]; intros d; simpl; [tauto|].
  rewrite IH, in_keys_record_execution.
  split; [intros [[->|I]|I] | intros [I|[E'|I]]]; auto.
Qed.

(** What the loop leaves under key [k]: the fold of [update_bucket] over
    the executions filed under [k]. *)
Lemma get_run_executions k E d :
  get k (run_executions E d)
  = match filed_under k E with
    | [] => get k d
    | _ :: _ =>
        Some (fold_left (update_bucket processes k) (filed_under k E)
                (get_default k default_bucket d))
    end.
Proof.
  unfold run_executions, filed_under. revert d.
  induction E as [|e E IH]; intros d; simpl; [reflexivity|].
  rewrite IH. unfold get_default at 1. rewrite get_record_execution.
  destruct (String.eqb_spec k (bucket_key e)) as [->|Hne].
  - rewrite String.eqb_refl. simpl.
    now destruct (filter _ E).
  - destruct (String.eqb_spec (bucket_key e) k) as [E'|_]; [congruence|].
    reflexivity.
Qed.

(** The fields of an accumulator after a run of updates. *)
Lemma fold_update_count k L b :
  b_execution_count (fold_left (update_bucket processes k) L b)
  = b_execution_count b + Z.of_nat (List.length L).
Proof.
  revert b. induction L as [|e L IH]; intros b; [simpl; lia|].
  cbn [fold_left List.length]. rewrite IH. simpl. lia.
Qed.

Lemma fold_update_total k L b :
  b_total_execution_size (fold_left (update_bucket processes k) L b)
  = b_total_execution_size b + sum_Z (map size_bytes L).
Proof.
  revert b. induction L as [|e L IH]; intros b; [simpl; lia|].
  cbn [fold_left map]. rewrite IH. simpl. lia.
Qed.

Lemma fold_update_max k L b :
  b_max_execution_size (fold_left (update_bucket processes k) L b)
  = max_from (b_max_execution_size b) (map size_bytes L).
Proof.
  unfold max_from. revert b. induction L as [|e L IH]; intros b; [reflexivity|].
  cbn [fold_left map]. now rewrite IH.
Qed.

Lemma fold_update_def k L b :
  b_process_definition_size (fold_left (update_bucket processes k) L b)
  = b_process_definition_size b.
Proof.
  revert b. induction L as [|e L IH]; intros b; [reflexivity|].
  cbn [fold_left]. now rewrite IH.
Qed.

Lemma fold_update_info_some k L b pi :
  b_process_info b = Some pi ->
  b_process_info (fold_left (update_bucket processes k) L b)
  = Some (match L with
          | [] => pi
          | _ :: _ => match get k processes with Some pi' => pi' | None => pi end
          end).
Proof.
  revert b pi. induction L as [|e L IH]; intros b pi Hb; [exact Hb|].
  cbn [fold_left].
  rewrite (IH _ (match get k processes with Some pi' => pi' | None => pi end)).
  - destruct L; destruct (get k processes); reflexivity.
  - simpl. rewrite Hb. now destruct (get k processes).
Qed.

Lemma fold_update_info_default k e L :
  b_process_info (fold_left (update_bucket processes k) (e :: L) default_bucket)
  = Some (attached_info k (e_process_name e)).
Proof.
  cbn [fold_left].
  rewrite (@fold_update_info_some k L (update_bucket processes k default_bucket e)
             (attached_info k (e_process_name e))).
  - unfold attached_info. destruct L; destruct (get k processes); reflexivity.
  - unfold attached_info. simpl. now destruct (get k processes).
Qed.

End EngineFacts.

(* ================================================================= *)
(** ** The definition-size loop and the conversion *)

Lemma last_size_absent dflt k (sizes : dict Z) :
  ~ In k (keys sizes) -> last_size dflt k sizes = dflt.
Proof.
  unfold last_size. revert dflt.
  induction sizes as [|[k' v] r IH]; intros dflt N; simpl; [reflexivity|].
  simpl in N. destruct (String.eqb_spec k k') as [->|Hne]; [tauto|].
  apply IH. tauto.
Qed.

Lemma last_size_wf dflt k (sizes : dict Z) :
  wf sizes -> last_size dflt k sizes = get_default k dflt sizes.
Proof.
  unfold wf, get_default. revert dflt.
  induction sizes as [|[k' v] r IH]; intros dflt W; [reflexivity|].
  inversion W as [|? ? Hn Hr]; subst.
  unfold last_size. cbn [fold_left fst snd get].
  destruct (String.eqb_spec k k') as [->|Hne].
  - now apply last_size_absent.
  - now apply IH.
Qed.

Section MergeFacts.

Variable processes : dict ProcessInfo.

Lemma get_add_definition_size k pid sz d :
  get k (add_definition_size processes d (pid, sz))
  = if String.eqb k pid
    then Some (match get pid d with
               | Some b => with_definition_size b sz
               | None => mkBucket (Some (no_executions_info processes pid)) 0 0 0 sz
               end)
    else get k d.
Proof.
  unfold add_definition_size.
  destruct (get pid d) as [b|] eqn:G; rewrite get_set;
    destruct (String.eqb k pid); reflexivity.
Qed.

Lemma wf_add_definition_size item d :
  wf d -> wf (add_definition_size processes d item).
Proof.
  destruct item as [pid sz]. unfold add_definition_size.
  destruct (get pid d); intros W; now apply wf_set.
Qed.

Lemma wf_fold_add_definition_size sizes d :
  wf d -> wf (fold_left (add_definition_size processes) sizes d).
Proof.
  revert d. induction sizes as [|item r IH]; intros d W; simpl; [exact W|].
  apply IH. now apply wf_add_definition_size.
Qed.

Lemma get_fold_add_definition_size k sizes d :
  get k (fold_left (add_definition_size processes) sizes d)
  = match get k d with
    | Some b =>
        Some (with_definition_size b
                (last_size (b_process_definition_size b) k sizes))
    | None =>
        if mem k sizes
        then Some (mkBucket (Some (no_executions_info processes k)) 0 0 0
                     (last_size 0 k sizes))
        else None
    end.
Proof.
  revert d. induction sizes as [|[pid sz] r IH]; intros d.
  - simpl. destruct (get k d) as [[? ? ? ? ?]|]; reflexivity.
  - cbn [fold_left]. rewrite IH, get_add_definition_size.
    unfold mem, last_size. cbn [fold_left get fst snd].
    destruct (String.eqb_spec k pid) as [->|Hne]; [|reflexivity].
    destruct (get pid d) as [b|]; reflexivity.
Qed.

(** Conversion keeps exactly the accumulators with a non-zero count. *)
Lemma in_convert k st (d : dict Bucket) :
  In (k, st) (convert d)
  <-> exists b, In (k, b) d /\ b_execution_count b <> 0 /\ st = finalize b.
Proof.
  induction d as [|[k' b'] r IH]; simpl.
  - split; [tauto | intros (b & [] & _)].
  - destruct (Z.eqb_spec (b_execution_count b') 0) as [Hz|Hnz].
    + rewrite IH. split.
      * intros (b & I & H). exists b. auto.
      * intros (b & [E|I] & Hc & Hs); [|exists b; auto].
        injection E as -> ->. contradiction.
    + simpl. rewrite IH. split.
      * intros [E|(b & I & H)]; [|exists b; auto].
        injection E as -> <-. exists b'. auto.
      * intros (b & [E|I] & Hc & Hs); [|right; exists b; auto].
        injection E as -> ->. left. now subst.
Qed.

Lemma keys_convert_incl (d : dict Bucket) k :
  In k (map fst (convert d)) -> In k (keys d).
Proof.
  induction d as [|[k' b'] r IH]; simpl; [tauto|].
  destruct (b_execution_count b' =? 0); simpl; tauto.
Qed.

Lemma NoDup_keys_convert (d : dict Bucket) : wf d -> NoDup (map fst (convert d)).
Proof.
  unfold wf. induction d as [|[k' b'] r IH]; simpl; intros W; [constructor|].
  inversion W; subst.
  destruct (b_execution_count b' =? 0); simpl; [auto|].
  constructor; [|auto]. intros I. now apply keys_convert_incl in I.
Qed.

End MergeFacts.

(* ================================================================= *)
(** ** The emitted elements, bucket by bucket *)

Section Characterisation.

Variable hash : string -> Z.
Variable processes : dict ProcessInfo.

Local Notation key_of := (key_of hash processes).
Local Notation executions_of := (executions_of hash processes).
Local Notation summary := (summary processes).

Lemma merged_stats_wf sizes E : wf (merged_stats hash processes sizes E).
Proof.
  unfold merged_stats, after_executions.
  apply wf_fold_add_definition_size.
  rewrite fst_fold_execution_step. apply wf_run_executions. constructor.
Qed.

Lemma get_merged_stats k sizes E :
  get k (merged_stats hash processes sizes E)
  = match executions_of k E with
    | [] =>
        if mem k sizes
        then Some (mkBucket (Some (no_executions_info processes k)) 0 0 0
                     (last_size 0 k sizes))
        else None
    | _ :: _ =>
        Some (with_definition_size
                (fold_left (update_bucket processes k) (executions_of k E)
                   default_bucket)
                (last_size 0 k sizes))
    end.
Proof.
  unfold merged_stats, after_executions.
  rewrite get_fold_add_definition_size, fst_fold_execution_step.
  rewrite get_run_executions. fold (executions_of k E).
  destruct (executions_of k E) as [|e L]; [reflexivity|].
  now rewrite fold_update_def.
Qed.

Lemma finalize_fold k e L sz :
  finalize (with_definition_size
              (fold_left (update_bucket processes k) (e :: L) default_bucket) sz)
  = summary k (e :: L) sz.
Proof.
  unfold finalize, summary, with_definition_size.
  cbn [b_process_info b_execution_count b_total_execution_size
       b_max_execution_size b_process_definition_size].
  rewrite fold_update_info_default, fold_update_count, fold_update_total,
    fold_update_max.
  reflexivity.
Qed.

(** Every emitted element, keyed by its bucket identifier. *)
Theorem items_spec k st sizes E :
  In (k, st) (generate_execution_stats_items hash processes sizes E)
  <-> executions_of k E <> []
      /\ st = summary k (executions_of k E) (last_size 0 k sizes).
Proof.
  unfold generate_execution_stats_items. rewrite in_convert. split.
  - intros (b & I & Hc & ->).
    apply in_get_wf in I; [|apply merged_stats_wf].
    rewrite get_merged_stats in I.
    destruct (executions_of k E) as [|e L] eqn:HL.
    + destruct (mem k sizes); [|discriminate].
      injection I as <-. simpl in Hc. congruence.
    + injection I as <-. split; [discriminate|]. apply finalize_fold.
  - intros (Hne & ->).
    destruct (executions_of k E) as [|e L] eqn:HL; [congruence|].
    exists (with_definition_size
              (fold_left (update_bucket processes k) (e :: L) default_bucket)
              (last_size 0 k sizes)).
    split; [|split].
    + apply get_some_in. rewrite get_merged_stats, HL. reflexivity.
    + unfold with_definition_size. cbn [b_execution_count].
      rewrite fold_update_count. simpl. lia.
    + symmetry. apply finalize_fold.
Qed.

Lemma items_keys_NoDup sizes E :
  NoDup (map fst (generate_execution_stats_items hash processes sizes E)).
Proof. apply NoDup_keys_convert, merged_stats_wf. Qed.

Lemma executions_of_nonempty k E :
  executions_of k E <> [] <-> In k (map key_of E).
Proof.
  unfold executions_of, filed_under, key_of.
  induction E as [|e E IH]; simpl; [tauto|].
  destruct (String.eqb_spec
              (bucket_key hash (create_process_name_to_id_mapping processes) e) k)
    as [->|Hne].
  - split; [now left | discriminate].
  - rewrite IH. tauto.
Qed.

Lemma in_executions_of k e E :
  In e (executions_of k E) <-> In e E /\ key_of e = k.
Proof.
  unfold executions_of, filed_under, key_of. rewrite filter_In.
  now rewrite String.eqb_eq.
Qed.

Lemma in_items_keys k sizes E :
  In k (map fst (generate_execution_stats_items hash processes sizes E))
  <-> In k (map key_of E).
Proof.
  rewrite <- executions_of_nonempty, in_map_iff. split.
  - intros ([k' st] & <- & I). now apply items_spec in I.
  - intros Hne. exists (k, summary k (executions_of k E) (last_size 0 k sizes)).
    split; [reflexivity|]. apply items_spec. auto.
Qed.

End Characterisation.

(* ================================================================= *)
(** ** The name index *)

Section NameIndex.

Implicit Types (P : dict ProcessInfo) (acc : dict string).

Lemma get_fold_add_name_absent name P acc :
  (forall pid info, In (pid, info) P -> process_name info <> name) ->
  get name (fold_left add_name P acc) = get name acc.
Proof.
  revert acc. induction P as [|[pid info] P IH]; intros acc H; [reflexivity|].
  cbn [fold_left add_name]. rewrite IH.
  - apply get_set_other. intros ->. apply (H pid info); [now left | reflexivity].
  - intros pid' info' I. apply (H pid' info'). now right.
Qed.

Lemma get_fold_add_name_origin name pid P acc :
  get name (fold_left add_name P acc) = Some pid ->
  (exists info, In (pid, info) P /\ process_name info = name)
  \/ get name acc = Some pid.
Proof.
  revert acc. induction P as [|[p info] P IH]; intros acc G; [now right|].
  cbn [fold_left add_name] in G. apply IH in G as [(i & I & Hn)|G].
  - left. exists i. split; [now right | exact Hn].
  - rewrite get_set in G.
    destruct (String.eqb_spec name (process_name info)) as [->|Hne].
    + injection G as <-. left. exists info. split; [now left | reflexivity].
    + now right.
Qed.

Lemma fold_add_name_app P1 P2 acc :
  fold_left add_name (P1 ++ P2) acc = fold_left add_name P2 (fold_left add_name P1 acc).
Proof. apply fold_left_app. Qed.

Lemma get_index_last P1 pid info P2 :
  (forall pid' info', In (pid', info') P2 -> process_name info' <> process_name info) ->
  get (process_name info) (create_process_name_to_id_mapping (P1 ++ (pid, info) :: P2))
  = Some pid.
Proof.
  intros H. unfold create_process_name_to_id_mapping.
  rewrite fold_add_name_app. cbn [fold_left add_name].
  rewrite get_fold_add_name_absent by exact H.
  apply get_set_same.
Qed.

Lemma keys_fold_add_name_grow name P acc :
  In name (keys acc) -> In name (keys (fold_left add_name P acc)).
Proof.
  revert acc. induction P as [|[p i] P IH]; intros acc I; [exact I|].
  cbn [fold_left add_name]. apply IH. apply in_keys_set. now right.
Qed.

Lemma index_covers_names P pid info :
  In (pid, info) P ->
  mem (process_name info) (create_process_name_to_id_mapping P) = true.
Proof.
  intros I. apply mem_true_iff. unfold create_process_name_to_id_mapping.
  generalize (@nil (string * string)).
  induction P as [|[p i] P IH]; intros acc; [destruct I|].
  cbn [fold_left add_name]. destruct I as [E|I].
  - injection E as -> ->. apply keys_fold_add_name_grow.
    apply in_keys_set. now left.
  - now apply IH.
Qed.

End NameIndex.

(** C7: the display-name index built by
    [create_process_name_to_id_mapping] sends a display name only to an
    identifier whose [ProcessInfo] in the definition mapping carries that
    name, it indexes every display name of the mapping, and the entry for
    a name is the identifier of the last item carrying it, so a later item
    overwrites an earlier one that shares its display name. *)
Theorem C7_name_index_last_wins (processes : dict ProcessInfo) :
  wf processes ->
  (forall name pid,
      get name (create_process_name_to_id_mapping processes) = Some pid ->
      exists info, get pid processes = Some info /\ process_name info = name)
  /\ (forall pid info,
         In (pid, info) processes ->
         mem (process_name info) (create_process_name_to_id_mapping processes) = true)
  /\ (forall earlier pid info later,
         processes = earlier ++ (pid, info) :: later ->
         (forall pid' info', In (pid', info') later ->
                             process_name info' <> process_name info) ->
         get (process_name info) (create_process_name_to_id_mapping processes)
         = Some pid).
Proof.
  intros W. split; [|split].
  - intros name pid G.
    apply get_fold_add_name_origin in G as [(info & I & Hn)|G]; [|discriminate].
    exists info. split; [now apply in_get_wf | exact Hn].
  - intros pid info. apply index_covers_names.
  - intros earlier pid info later -> H. now apply get_index_last.
Qed.

Lemma C7_witness :
  wf twin_processes
  /\ get "Invoice Sync" (create_process_name_to_id_mapping twin_processes) = Some "B2".
Proof.
  assert (W : wf twin_processes).
  { unfold wf. simpl. repeat constructor; simpl; intuition discriminate. }
  split; [exact W|].
  destruct (C7_name_index_last_wins W) as (_ & _ & H).
  apply (H [("A1", twin_first)] "B2" twin_second []).
  - reflexivity.
  - intros pid' info' [].
Defined.

(* ================================================================= *)
(** ** Properties of the emitted list *)

Lemma in_generate_execution_stats hash processes sizes E st :
  In st (generate_execution_stats hash processes sizes E)
  <-> exists k, In (k, st) (generate_execution_stats_items hash processes sizes E).
Proof.
  unfold generate_execution_stats. rewrite in_map_iff. split.
  - intros ([k st'] & <- & I). now exists k.
  - intros (k & I). now exists (k, st).
Qed.



(** C1: every element returned by [generate_execution_stats] has
    [execution_count >= 1]; an identifier of the definition-size mapping
    under which no execution is filed gets an accumulator with count 0 and
    no element in the output. *)
Theorem C1_every_element_has_an_execution
    (hash : string -> Z) (processes : dict ProcessInfo)
    (process_sizes : dict Z) (executions : list ExecutionInfo) :
  (forall st,
      In st (generate_execution_stats hash processes process_sizes executions) ->
      1 <= execution_count st)
  /\ (forall pid,
         In pid (keys process_sizes) ->
         ~ In pid (map (key_of hash processes) executions) ->
         (exists b,
             get pid (merged_stats hash processes process_sizes executions) = Some b
             /\ b_execution_count b = 0)
         /\ ~ In pid (map fst (generate_execution_stats_items
                                 hash processes process_sizes executions))).
Proof.
  split.
  - intros st I. apply in_generate_execution_stats in I as (k & I).
    apply items_spec in I as (Hne & ->). simpl.
    destruct (executions_of hash processes k executions); [congruence|].
    simpl List.length. lia.
  - intros pid HS HE. split.
    + rewrite get_merged_stats.
      rewrite <- executions_of_nonempty in HE.
      destruct (executions_of hash processes pid executions) as [|e L];
        [|exfalso; apply HE; discriminate].
      apply mem_true_iff in HS. rewrite HS. eexists. split; reflexivity.
    + now rewrite in_items_keys.
Qed.

Lemma C1_witness :
  In "B2" (keys idle_sizes)
  /\ ~ In "B2" (map (key_of sum_codes scen_processes) scen_executions)
  /\ ~ In "B2" (map fst (generate_execution_stats_items
                           sum_codes scen_processes idle_sizes scen_executions)).
Proof.
  assert (HS : In "B2" (keys idle_sizes)) by (simpl; auto).
  assert (HE : ~ In "B2" (map (key_of sum_codes scen_processes) scen_executions)).
  { vm_compute. intuition discriminate. }
  split; [exact HS | split; [exact HE|]].
  exact (proj2 (proj2 (C1_every_element_has_an_execution
                         sum_codes scen_processes idle_sizes scen_executions)
                  "B2" HS HE)).
Defined.

(** C2: the emitted elements have pairwise distinct bucket identifiers
    and every execution is counted in the element of the identifier its
    display name resolves to, so executions resolving to one identifier
    share one bucket; for every emitted element [execution_count] is the
    number of executions filed under its identifier, [total_size_bytes]
    is the sum of their sizes plus the definition size once, and
    [max_size_bytes] is the maximum of the largest of their sizes and the
    definition size. *)
Theorem C2_bucket_totals
    (hash : string -> Z) (processes : dict ProcessInfo)
    (process_sizes : dict Z) (executions : list ExecutionInfo) :
  wf process_sizes ->
  Forall (fun e => 0 <= size_bytes e) executions ->
  let items := generate_execution_stats_items hash processes process_sizes executions in
  NoDup (map fst items)
  /\ (forall e, In e executions -> In (key_of hash processes e) (map fst items))
  /\ (forall k st,
         In (k, st) items ->
         let mine := executions_of hash processes k executions in
         let definition_size := get_default k 0 process_sizes in
         (forall e, In e mine <-> In e executions /\ key_of hash processes e = k)
         /\ execution_count st = Z.of_nat (List.length mine)
         /\ total_size_bytes st = sum_Z (map size_bytes mine) + definition_size
         /\ exists largest,
             In largest (map size_bytes mine)
             /\ (forall x, In x (map size_bytes mine) -> x <= largest)
             /\ max_size_bytes st = Z.max largest definition_size).
Proof.
  intros W Hpos items. split; [apply items_keys_NoDup | split].
  - intros e I. apply in_items_keys. now apply in_map.
  - intros k st I. cbv zeta.
    apply items_spec in I as (Hne & ->).
    rewrite (last_size_wf 0 k W).
    split; [intros e; apply in_executions_of|].
    assert (Hp : Forall (fun x => 0 <= x)
                   (map size_bytes (executions_of hash processes k executions))).
    { apply Forall_forall. intros x Hx. apply in_map_iff in Hx as (e & <- & He).
      apply in_executions_of in He as [He _].
      rewrite Forall_forall in Hpos. now apply Hpos. }
    revert Hne Hp.
    generalize (executions_of hash processes k executions). intros mine Hne Hp.
    split; [reflexivity | split; [reflexivity|]].
    exists (max_from 0 (map size_bytes mine)).
    assert (Hm : map size_bytes mine <> []).
    { destruct mine; [congruence | discriminate]. }
    destruct (max_from_0_largest Hm Hp) as [Hin Hup].
    split; [exact Hin | split; [exact Hup | reflexivity]].
Qed.

Lemma C2_witness :
  wf scen_sizes
  /\ Forall (fun e => 0 <= size_bytes e) scen_executions
  /\ NoDup (map fst (generate_execution_stats_items
                       sum_codes scen_processes scen_sizes scen_executions)).
Proof.
  assert (W : wf scen_sizes).
  { unfold wf. simpl. repeat constructor. simpl. tauto. }
  assert (Hpos : Forall (fun e => 0 <= size_bytes e) scen_executions).
  { repeat constructor; simpl; lia. }
  split; [exact W | split; [exact Hpos|]].
  exact (proj1 (@C2_bucket_totals sum_codes scen_processes scen_sizes
                  scen_executions W Hpos)).
Defined.



(* ================================================================= *)
(** ** Unresolved names and the worked scenario *)

Lemma fallback_id_not_A1 hash name : String.eqb (fallback_id hash name) "A1" = false.
Proof. reflexivity. Qed.

Lemma fallback_id_range hash name :
  exists n, 0 <= n < 10000 /\ n = hash name mod 10000
            /\ fallback_id hash name = ("unknown_process_" ++ str_of_Z n)%string.
Proof.
  exists (hash name mod 10000). split; [|split; reflexivity].
  apply Z.mod_pos_bound. lia.
Qed.

Lemma key_of_unresolved hash processes e :
  get (e_process_name e) (create_process_name_to_id_mapping processes) = None ->
  key_of hash processes e = fallback_id hash (e_process_name e).
Proof.
  intros G. unfold key_of, bucket_key, resolve, get_default. now rewrite G.
Qed.

Lemma invoice_sync_scenario_output
    (hash : string -> Z) (type folder : string)
    (id1 id2 id3 : string) (t1 t2 t3 : option datetime) :
  generate_execution_stats hash
    [("A1", mkProcessInfo "A1" "Invoice Sync" type folder)]
    [("A1", 1000)]
    [mkExecutionInfo id1 "Invoice Sync" "" 2000 t1;
     mkExecutionInfo id2 "Invoice Sync" "" 3000 t2;
     mkExecutionInfo id3 "Unknown Flow" "" 500 t3]
  = [mkExecutionStats (Some (mkProcessInfo "A1" "Invoice Sync" type folder))
       2 6000 3000;
     mkExecutionStats
       (Some (mkProcessInfo (fallback_id hash "Unknown Flow") "Unknown Flow"
                "unknown" ""))
       1 500 500].
Proof.
  unfold generate_execution_stats, generate_execution_stats_items,
    merged_stats, after_executions.
  rewrite fst_fold_execution_step.
  unfold run_executions, bucket_key, resolve, get_default.
  cbn [fold_left create_process_name_to_id_mapping add_name set get
       process_name e_process_name String.eqb Ascii.eqb Bool.eqb].
  set (u := fallback_id hash "Unknown Flow").
  assert (Hu : String.eqb u "A1" = false) by apply fallback_id_not_A1.
  clearbody u.
  unfold record_execution, getitem_default, update_bucket.
  repeat (simpl; rewrite ?Hu, ?String.eqb_refl).
  reflexivity.
Qed.

(** C6: on the scenario with the single definition "A1" ("Invoice
    Sync", 1000 bytes) and the executions ("Invoice Sync", 2000),
    ("Invoice Sync", 3000), ("Unknown Flow", 500), the function returns
    exactly two elements: "Invoice Sync" with count 2, total 6000 and
    maximum 3000, then the "Unknown Flow" placeholder with count 1, total
    500 and maximum 500. *)
Theorem C6_invoice_sync_scenario
    (hash : string -> Z) (type folder : string)
    (id1 id2 id3 : string) (t1 t2 t3 : option datetime) :
  generate_execution_stats hash
    [("A1", mkProcessInfo "A1" "Invoice Sync" type folder)]
    [("A1", 1000)]
    [mkExecutionInfo id1 "Invoice Sync" "" 2000 t1;
     mkExecutionInfo id2 "Invoice Sync" "" 3000 t2;
     mkExecutionInfo id3 "Unknown Flow" "" 500 t3]
  = [mkExecutionStats (Some (mkProcessInfo "A1" "Invoice Sync" type folder))
       2 6000 3000;
     mkExecutionStats
       (Some (mkProcessInfo (fallback_id hash "Unknown Flow") "Unknown Flow"
                "unknown" ""))
       1 500 500].
Proof. apply invoice_sync_scenario_output. Qed.

(** C3, as stated, fails: with the stand-in hash the name "X" gets the
    fallback identifier "unknown_process_88"; when the definition mapping
    has that very key, the bucket takes the definition's [ProcessInfo],
    whose type is "process". *)
Lemma C3_counterexample :
  ~ unresolved_is_unknown sum_codes clash_processes [] clash_executions.
Proof.
  intros H.
  destruct (H (mkExecutionInfo "execution-9" "X" "" 10 None)
              (or_introl eq_refl) eq_refl) as (st & pi & I & Hi & Ht).
  vm_compute in I. destruct I as [E|[]].
  injection E as <-. simpl in Hi. injection Hi as <-.
  discriminate Ht.
Qed.

(** The same failure for every hash function: it is enough that the
    definition mapping has the fallback identifier among its keys. *)
Lemma unresolved_is_unknown_fails_for_any_hash (hash : string -> Z) :
  ~ unresolved_is_unknown hash
      [(fallback_id hash "X",
        mkProcessInfo (fallback_id hash "X") "Nightly Export" "process" "Ops")]
      [] clash_executions.
Proof.
  intros H.
  destruct (H (mkExecutionInfo "execution-9" "X" "" 10 None)
              (or_introl eq_refl) eq_refl) as (st & pi & I & Hi & Ht).
  apply items_spec in I as (_ & ->).
  unfold summary, attached_info in Hi. cbn [process_info get] in Hi.
  rewrite String.eqb_refl in Hi. injection Hi as <-.
  discriminate Ht.
Qed.

(** C3 (amended): an execution whose display name is absent from the
    name index and whose fallback identifier is not a key of the
    definition mapping is filed under that fallback identifier, in the one
    emitted bucket with that identifier, whose [process_info] is a
    placeholder of type "unknown" carrying the fallback identifier; the
    fallback identifier is "unknown_process_" followed by the decimal of
    [hash(name) % 10000], a value in [0, 10000), so every execution with
    the same display name is filed under the same identifier. *)
Theorem C3_unresolved_name_gets_unknown_bucket
    (hash : string -> Z) (processes : dict ProcessInfo)
    (process_sizes : dict Z) (executions : list ExecutionInfo)
    (e : ExecutionInfo) :
  In e executions ->
  get (e_process_name e) (create_process_name_to_id_mapping processes) = None ->
  get (fallback_id hash (e_process_name e)) processes = None ->
  let fid := fallback_id hash (e_process_name e) in
  let items := generate_execution_stats_items hash processes process_sizes executions in
  key_of hash processes e = fid
  /\ (exists n, 0 <= n < 10000 /\ n = hash (e_process_name e) mod 10000
                /\ fid = ("unknown_process_" ++ str_of_Z n)%string)
  /\ (forall e', In e' executions -> e_process_name e' = e_process_name e ->
                 key_of hash processes e' = fid)
  /\ exists st pi,
      In (fid, st) items
      /\ (forall st', In (fid, st') items -> st' = st)
      /\ process_info st = Some pi
      /\ process_type pi = "unknown"
      /\ process_id pi = fid.
Proof.
  intros I G GP fid items.
  assert (K : key_of hash processes e = fid) by now apply key_of_unresolved.
  split; [exact K | split; [apply fallback_id_range | split]].
  - intros e' _ Hn. unfold fid. rewrite <- Hn. apply key_of_unresolved.
    now rewrite Hn.
  - exists (summary processes fid (executions_of hash processes fid executions)
              (last_size 0 fid process_sizes)).
    exists (mkProcessInfo fid
              (first_name (executions_of hash processes fid executions))
              "unknown" "").
    split; [|split; [|split; [|split; reflexivity]]].
    + apply items_spec. split; [|reflexivity].
      apply executions_of_nonempty. rewrite <- K. now apply in_map.
    + intros st' I'. now apply items_spec in I' as (_ & ->).
    + unfold summary, attached_info. cbn [process_info]. fold fid in GP.
      now rewrite GP.
Qed.

Lemma C3_witness :
  In (mkExecutionInfo "execution-3" "Unknown Flow" "" 500 None) scen_executions
  /\ key_of sum_codes scen_processes
       (mkExecutionInfo "execution-3" "Unknown Flow" "" 500 None)
     = fallback_id sum_codes "Unknown Flow".
Proof.
  assert (I : In (mkExecutionInfo "execution-3" "Unknown Flow" "" 500 None)
                scen_executions) by (simpl; auto).
  split; [exact I|].
  exact (proj1 (@C3_unresolved_name_gets_unknown_bucket sum_codes scen_processes
                  scen_sizes scen_executions _ I eq_refl eq_refl)).
Defined.

(* ================================================================= *)
(** ** The size scanner *)

Lemma walk_loop_spec events total :
  walk_loop total events
  = (total + skip_and_continue_total (before_first_error events),
     first_error events).
Proof.
  unfold skip_and_continue_total. revert total.
  induction events as [|ev rest IH]; intros total; simpl.
  - f_equal. lia.
  - destruct ev as [[[[|]|msg] [n|msg']]|msg]; simpl;
      try (f_equal; lia); rewrite IH; f_equal; lia.
Qed.

Lemma before_first_error_all events :
  first_error events = None -> before_first_error events = events.
Proof.
  induction events as [|ev rest IH]; simpl; [reflexivity|].
  destruct (event_error ev); [discriminate|].
  intros H. now rewrite IH.
Qed.

(** C4, as stated, fails: in [locked_dir] the entry between the two
    readable files raises, the walk ends there and the function returns
    10, not the 30 that skipping the entry alone would give. *)
Lemma C4_counterexample : ~ skips_only_failing_entry locked_dir.
Proof. unfold skips_only_failing_entry. vm_compute. discriminate. Qed.

(** C4 (amended): on a directory, an access error raised while walking
    ends the walk at that entry; the function does not raise, it prints one
    warning naming the scanned path and returns the sum of the sizes of
    the regular files met before the error.  When no entry raises it
    prints nothing and returns the sum over the whole walk. *)
Theorem C4_walk_ends_at_first_error (path : Path) :
  path_exists path = Done true ->
  path_is_file path = Done false ->
  get_file_size_recursive path
  = (Ok (skip_and_continue_total (before_first_error (path_rglob path))),
     match first_error (path_rglob path) with
     | None => []
     | Some e => [access_warning (path_str path) e]
     end)
  /\ (first_error (path_rglob path) = None ->
      get_file_size_recursive path
      = (Ok (skip_and_continue_total (path_rglob path)), [])).
Proof.
  intros He Hf.
  assert (G : get_file_size_recursive path
              = (Ok (skip_and_continue_total (before_first_error (path_rglob path))),
                 match first_error (path_rglob path) with
                 | None => []
                 | Some e => [access_warning (path_str path) e]
                 end)).
  { unfold get_file_size_recursive. rewrite He, Hf.
    rewrite walk_loop_spec. simpl Z.add.
    now destruct (first_error (path_rglob path)). }
  split; [exact G|].
  intros Hn. rewrite G, Hn. now rewrite before_first_error_all.
Qed.

Lemma C4_witness :
  path_exists locked_dir = Done true
  /\ path_is_file locked_dir = Done false
  /\ get_file_size_recursive locked_dir
     = (Ok 10,
        ["Warning: Could not access /opt/Boomi/atom/jmxDemo/execution/history/execution-7: [Errno 13] Permission denied"]).
Proof.
  split; [reflexivity | split; [reflexivity|]].
  exact (proj1 (@C4_walk_ends_at_first_error locked_dir eq_refl eq_refl)).
Defined.




(* ================================================================= *)
(** ** The megabyte properties and the CSV report *)

Ltac fits_float := repeat split; vm_compute; reflexivity.

Section ReportFacts.

Context {F : PyFloat}.

Lemma int_truediv_mb (a : Z) :
  int_truediv a (1024 * 1024)
  = if quotient_overflows a 1048576 then Raise OverflowError
    else Ok (float_of_quotient a 1048576).
Proof. reflexivity. Qed.

Lemma int_truediv_mb_fits (a : Z) :
  Z.abs a < float_range * 1048576 ->
  int_truediv a (1024 * 1024) = Ok (float_of_quotient a 1048576).
Proof.
  intros H. rewrite int_truediv_mb.
  now rewrite (quotient_in_range a 1048576 H).
Qed.

Lemma total_size_mb_ok (s : ExecutionStats) :
  Z.abs (total_size_bytes s) < float_range * 1048576 ->
  total_size_mb s = Ok (float_of_quotient (total_size_bytes s) 1048576).
Proof. apply int_truediv_mb_fits. Qed.

Lemma max_size_mb_ok (s : ExecutionStats) :
  Z.abs (max_size_bytes s) < float_range * 1048576 ->
  max_size_mb s = Ok (float_of_quotient (max_size_bytes s) 1048576).
Proof. apply int_truediv_mb_fits. Qed.

Lemma avg_size_mb_ok (s : ExecutionStats) :
  sizes_fit_float s ->
  avg_size_mb s
  = Ok (if execution_count s =? 0 then float_zero
        else float_div_int (float_of_quotient (total_size_bytes s) 1048576)
               (execution_count s)).
Proof.
  intros (Ht & _ & Hc). unfold avg_size_mb, float_truediv.
  rewrite (total_size_mb_ok s Ht), (int_in_range _ Hc). simpl.
  now destruct (execution_count s =? 0).
Qed.

(** No [ExecutionStats] value has the attribute the report looks for. *)
Lemma no_definition_size_attribute (s : ExecutionStats) :
  hasattr s "process_definition_size_mb" = false.
Proof. reflexivity. Qed.

(** The data row of an element: eleven fields in the order of the
    header, the tenth being the integer 0 and the eleventh the total size
    in megabytes. *)
Lemma csv_row_shape (s : ExecutionStats) (info : ProcessInfo) :
  process_info s = Some info ->
  sizes_fit_float s ->
  csv_row s
  = Ok [VStr (process_name info); VStr (process_id info);
        VStr (process_type info); VStr (folder_name info);
        VInt (execution_count s); VInt (total_size_bytes s);
        VFloat (float_of_quotient (total_size_bytes s) 1048576);
        VFloat (if execution_count s =? 0 then float_zero
                else float_div_int
                       (float_of_quotient (total_size_bytes s) 1048576)
                       (execution_count s));
        VFloat (float_of_quotient (max_size_bytes s) 1048576);
        VInt 0;
        VFloat (float_of_quotient (total_size_bytes s) 1048576)].
Proof.
  intros Hi Hf. unfold csv_row, info_field.
  rewrite no_definition_size_attribute, Hi, (avg_size_mb_ok Hf),
    (total_size_mb_ok s (proj1 Hf)), (max_size_mb_ok s (proj1 (proj2 Hf))).
  reflexivity.
Qed.

Lemma avg_size_mb_not_zero_division (s : ExecutionStats) :
  avg_size_mb s <> Raise ZeroDivisionError.
Proof.
  unfold avg_size_mb, total_size_mb.
  destruct (execution_count s =? 0) eqn:E; [discriminate|].
  rewrite int_truediv_mb.
  destruct (quotient_overflows (total_size_bytes s) 1048576); [discriminate|].
  unfold bind, float_truediv. rewrite E.
  destruct (int_overflows (execution_count s)); discriminate.
Qed.

(** C8: [avg_size_mb] returns 0.0 when [execution_count] is 0, without
    evaluating the division; when [execution_count] is positive it is
    [total_size_mb / execution_count], the same value or the same
    [OverflowError], and a value whenever the figures are within the range
    of a float; in no case does it raise [ZeroDivisionError]. *)
Theorem C8_avg_size_mb_guard (s : ExecutionStats) :
  (execution_count s = 0 -> avg_size_mb s = Ok float_zero)
  /\ (0 < execution_count s ->
      avg_size_mb s
      = (t <- total_size_mb s ;; float_truediv t (execution_count s)))
  /\ (0 < execution_count s -> sizes_fit_float s ->
      exists t, total_size_mb s = Ok t
                /\ avg_size_mb s = Ok (float_div_int t (execution_count s)))
  /\ avg_size_mb s <> Raise ZeroDivisionError.
Proof.
  split; [|split; [|split]].
  - intros Hz. unfold avg_size_mb. now rewrite Hz.
  - intros Hpos. unfold avg_size_mb.
    destruct (Z.eqb_spec (execution_count s) 0); [lia | reflexivity].
  - intros Hpos Hf. eexists. split; [apply total_size_mb_ok, Hf|].
    rewrite (avg_size_mb_ok Hf).
    destruct (Z.eqb_spec (execution_count s) 0); [lia | reflexivity].
  - apply avg_size_mb_not_zero_division.
Qed.

(** C5 at the worked scenario: the file holds the header and one row of
    eleven fields per element, but the row of "Invoice Sync", whose
    definition size is 1000 bytes, carries the integer 0 in the
    definition-size column and the whole total (6000 bytes, in MB) in the
    execution-size column. *)
Theorem C5_definition_column_at_scenario (hash : string -> Z) :
  write_csv_report
    (generate_execution_stats hash scen_processes scen_sizes scen_executions)
    report_file
  = ([csv_header;
      [VStr "Invoice Sync"; VStr "A1"; VStr "process"; VStr "Finance";
       VInt 2; VInt 6000;
       VFloat (float_of_quotient 6000 1048576);
       VFloat (float_div_int (float_of_quotient 6000 1048576) 2);
       VFloat (float_of_quotient 3000 1048576);
       VInt 0;
       VFloat (float_of_quotient 6000 1048576)];
      [VStr "Unknown Flow"; VStr (fallback_id hash "Unknown Flow");
       VStr "unknown"; VStr "";
       VInt 1; VInt 500;
       VFloat (float_of_quotient 500 1048576);
       VFloat (float_div_int (float_of_quotient 500 1048576) 1);
       VFloat (float_of_quotient 500 1048576);
       VInt 0;
       VFloat (float_of_quotient 500 1048576)]],
     Ok tt,
     [""; "Detailed CSV report written to: /home/boomi/boomi_log_space_report.csv"])
  /\ definition_size_mb_of scen_sizes "A1" = Ok (float_of_quotient 1000 1048576).
Proof.
  split; [|apply int_truediv_mb_fits; fits_float].
  unfold scen_processes, scen_sizes, scen_executions.
  rewrite invoice_sync_scenario_output.
  unfold write_csv_report, leave_with, report_file.
  cbn [file_open file_absolute file_writerow file_close].
  repeat (cbn [write_rows app];
          erewrite csv_row_shape by first [reflexivity | fits_float]).
  reflexivity.
Qed.

End ReportFacts.

Lemma C8_witness :
  0 < execution_count invoice_stats
  /\ sizes_fit_float invoice_stats
  /\ avg_size_mb (F := QFloat) invoice_stats
     = Ok ((inject_Z 6000 / inject_Z 1048576) / inject_Z 2)%Q.
Proof.
  assert (Hpos : 0 < execution_count invoice_stats) by (simpl; lia).
  assert (Hf : sizes_fit_float invoice_stats) by fits_float.
  split; [exact Hpos | split; [exact Hf|]].
  destruct (proj1 (proj2 (proj2 (@C8_avg_size_mb_guard QFloat invoice_stats)))
              Hpos Hf) as (t & Ht & Ha).
  rewrite Ha. rewrite (@total_size_mb_ok QFloat invoice_stats (proj1 Hf)) in Ht.
  injection Ht as <-. reflexivity.
Defined.

(** A total of 10^400 bytes is beyond the range of a float: the
    accessor raises [OverflowError], as [total_size_mb] does. *)
Lemma avg_size_mb_overflow_example :
  total_size_mb (F := QFloat) huge_stats = Raise OverflowError
  /\ avg_size_mb (F := QFloat) huge_stats = Raise OverflowError.
Proof. split; vm_compute; reflexivity. Qed.

(* ================================================================= *)
(** ** A limit of permutation invariance *)

(** With a hash under which two unknown names collide, the display name
    kept in the placeholder is the one met first, so it follows the order
    of the executions even though the bucket's figures do not. *)
Lemma placeholder_name_follows_order :
  let x := mkExecutionInfo "execution-1" "X" "" 10 None in
  let y := mkExecutionInfo "execution-2" "Y" "" 20 None in
  generate_execution_stats (fun _ => 0) [] [] [x; y]
  = [mkExecutionStats
       (Some (mkProcessInfo "unknown_process_0" "X" "unknown" "")) 2 30 20]
  /\ generate_execution_stats (fun _ => 0) [] [] [y; x]
     = [mkExecutionStats
          (Some (mkProcessInfo "unknown_process_0" "Y" "unknown" "")) 2 30 20].
Proof. split; reflexivity. Qed.

(* ================================================================= *)
(** ** Order of insertion *)

Lemma in_set_add x y s : In x (set_add y s) <-> x = y \/ In x s.
Proof.
  unfold set_add. destruct (existsb (String.eqb y) s) eqn:Ex.
  - apply existsb_exists in Ex as (z & Iz & Hz). apply String.eqb_eq in Hz.
    subst z. split; [auto | intros [->|I]; assumption].
  - rewrite in_app_iff. simpl. split; [intros [I|[E|[]]]; auto | ].
    intros [->|I]; auto.
Qed.

Lemma NoDup_set_add y s : NoDup s -> NoDup (set_add y s).
Proof.
  intros N. unfold set_add. destruct (existsb (String.eqb y) s) eqn:Ex; [exact N|].
  assert (Hy : ~ In y s).
  { intros I. apply not_true_iff_false in Ex. apply Ex.
    apply existsb_exists. exists y. split; [exact I | apply String.eqb_refl]. }
  clear Ex. induction s as [|x s IH]; simpl.
  - constructor; [tauto | constructor].
  - inversion N; subst. constructor.
    + rewrite in_app_iff. simpl. intros [I|[E|[]]]; [tauto|].
      apply Hy. now left.
    + apply IH; [assumption|]. intros I. apply Hy. now right.
Qed.

Lemma set_add_present y s : In y s -> set_add y s = s.
Proof.
  intros I. unfold set_add.
  replace (existsb (String.eqb y) s) with true; [reflexivity|].
  symmetry. apply existsb_exists. exists y. split; [exact I | apply String.eqb_refl].
Qed.

Lemma fold_set_add_in l acc x :
  In x (fold_left (fun a y => set_add y a) l acc) <-> In x acc \/ In x l.
Proof.
  revert acc. induction l as [|y l IH]; intros acc; simpl; [tauto|].
  rewrite IH, in_set_add. intuition (subst; auto).
Qed.

Lemma fold_set_add_NoDup l acc :
  NoDup acc -> NoDup (fold_left (fun a y => set_add y a) l acc).
Proof.
  revert acc. induction l as [|y l IH]; intros acc N; simpl; [exact N|].
  apply IH. now apply NoDup_set_add.
Qed.

(** Later additions only append, and only elements not yet present. *)
Lemma fold_set_add_extends l acc :
  exists extra,
    fold_left (fun a y => set_add y a) l acc = acc ++ extra
    /\ forall x, In x extra -> ~ In x acc.
Proof.
  revert acc. induction l as [|y l IH]; intros acc; simpl.
  - exists []. split; [now rewrite app_nil_r | intros x []].
  - destruct (IH (set_add y acc)) as (extra & -> & Hd).
    unfold set_add in *. destruct (existsb (String.eqb y) acc) eqn:Ex.
    + exists extra. split; [reflexivity | exact Hd].
    + exists (y :: extra). split; [now rewrite <- app_assoc|].
      intros x [<-|I] Hx.
      * apply not_true_iff_false in Ex. apply Ex. apply existsb_exists.
        exists y. split; [exact Hx | apply String.eqb_refl].
      * apply (Hd x I). rewrite in_app_iff. now left.
Qed.

Lemma first_occurrences_in l x : In x (first_occurrences l) <-> In x l.
Proof. unfold first_occurrences. rewrite fold_set_add_in. simpl. tauto. Qed.

Lemma first_occurrences_NoDup l : NoDup (first_occurrences l).
Proof. apply fold_set_add_NoDup. constructor. Qed.

Section KeysFacts.

Context {V : Type}.
Implicit Types (d : dict V) (k : string) (v : V).

Lemma existsb_keys k d : existsb (String.eqb k) (keys d) = mem k d.
Proof.
  unfold mem. induction d as [|[k' v'] r IH]; simpl; [reflexivity|].
  destruct (String.eqb k k'); [reflexivity | exact IH].
Qed.

Lemma keys_set_add k v d : keys (set k v d) = set_add k (keys d).
Proof. rewrite keys_set. unfold set_add. now rewrite existsb_keys. Qed.

(** A dict with distinct keys is its list of keys paired with the
    lookups. *)
Lemma dict_as_lookups (dflt : V) d :
  wf d -> d = map (fun k => (k, get_default k dflt d)) (keys d).
Proof.
  unfold wf, get_default. induction d as [|[k v] r IH]; intros W; [reflexivity|].
  inversion W as [|? ? Hn Hr]; subst. cbn [keys map fst get].
  rewrite String.eqb_refl. f_equal.
  rewrite (IH Hr) at 1. apply map_ext_in. intros k' Hk'.
  destruct (String.eqb_spec k' k) as [->|_]; [contradiction | reflexivity].
Qed.

End KeysFacts.

Section OrderFacts.

Variable hash : string -> Z.
Variable processes : dict ProcessInfo.

Lemma keys_record_execution pid e (d : dict Bucket) :
  keys (record_execution processes pid e d) = set_add pid (keys d).
Proof.
  unfold record_execution, getitem_default.
  destruct (get pid d) as [b|] eqn:G; rewrite keys_set_add; [reflexivity|].
  rewrite keys_set_add. apply set_add_present. apply in_set_add. now left.
Qed.

Lemma keys_run_executions name_to_id E (d : dict Bucket) :
  keys (run_executions hash processes name_to_id E d)
  = fold_left (fun a y => set_add y a) (map (bucket_key hash name_to_id) E) (keys d).
Proof.
  unfold run_executions. revert d.
  induction E as [|e E IH]; intros d; simpl; [reflexivity|].
  now rewrite IH, keys_record_execution.
Qed.

Lemma keys_add_definition_size (d : dict Bucket) item :
  keys (add_definition_size processes d item) = set_add (fst item) (keys d).
Proof.
  destruct item as [pid sz]. unfold add_definition_size.
  destruct (get pid d); apply keys_set_add.
Qed.

Lemma keys_fold_add_definition_size sizes (d : dict Bucket) :
  keys (fold_left (add_definition_size processes) sizes d)
  = fold_left (fun a y => set_add y a) (keys sizes) (keys d).
Proof.
  revert d. induction sizes as [|item r IH]; intros d; simpl; [reflexivity|].
  now rewrite IH, keys_add_definition_size.
Qed.

(** Conversion over a list of keys whose tail holds only accumulators
    with count 0. *)
Lemma convert_lookups (f : string -> Bucket) ks extra :
  (forall k, In k ks -> b_execution_count (f k) <> 0) ->
  (forall k, In k extra -> b_execution_count (f k) = 0) ->
  convert (map (fun k => (k, f k)) (ks ++ extra))
  = map (fun k => (k, finalize (f k))) ks.
Proof.
  intros Hk He. induction ks as [|k ks IH]; simpl.
  - induction extra as [|x extra IHe]; simpl; [reflexivity|].
    rewrite (He x) by now left. simpl. apply IHe.
    intros k I. apply He. now right.
  - destruct (Z.eqb_spec (b_execution_count (f k)) 0) as [Hz|_].
    + exfalso. apply (Hk k); [now left | exact Hz].
    + f_equal. apply IH. intros k' I. apply Hk. now right.
Qed.

(** The emitted items are the identifiers in order of first appearance,
    each with the summary of its executions. *)
Lemma items_are_expected sizes E :
  generate_execution_stats_items hash processes sizes E
  = expected_items hash processes sizes E.
Proof.
  unfold generate_execution_stats_items, expected_items.
  rewrite (dict_as_lookups default_bucket (merged_stats_wf hash processes sizes E)).
  set (m := merged_stats hash processes sizes E).
  assert (Hk : keys m
               = fold_left (fun a y => set_add y a) (keys sizes)
                   (first_occurrences (map (key_of hash processes) E))).
  { unfold m, merged_stats, after_executions.
    rewrite keys_fold_add_definition_size, fst_fold_execution_step,
      keys_run_executions. reflexivity. }
  destruct (fold_set_add_extends (keys sizes)
              (first_occurrences (map (key_of hash processes) E)))
    as (extra & Hx & Hd).
  rewrite Hk, Hx.
  rewrite convert_lookups.
  - apply map_ext_in. intros k I. f_equal.
    apply first_occurrences_in, executions_of_nonempty in I.
    unfold get_default, m. rewrite get_merged_stats.
    destruct (executions_of hash processes k E) as [|e L]; [congruence|].
    apply finalize_fold.
  - intros k I. apply first_occurrences_in, executions_of_nonempty in I.
    unfold get_default, m. rewrite get_merged_stats.
    destruct (executions_of hash processes k E) as [|e L]; [congruence|].
    unfold with_definition_size. cbn [b_execution_count].
    rewrite fold_update_count. simpl. lia.
  - intros k I. apply Hd in I.
    rewrite first_occurrences_in, <- executions_of_nonempty in I.
    unfold get_default, m. rewrite get_merged_stats.
    destruct (executions_of hash processes k E) as [|e L];
      [|exfalso; apply I; discriminate].
    destruct (mem k sizes); reflexivity.
Qed.

End OrderFacts.

(* ================================================================= *)
(** ** Totals over the buckets *)

Lemma sum_Z_map_add {A : Type} (f g : A -> Z) l :
  sum_Z (map (fun x => f x + g x) l) = sum_Z (map f l) + sum_Z (map g l).
Proof. induction l as [|x l IH]; simpl; lia. Qed.

Lemma sum_Z_cons (x : Z) l : sum_Z (x :: l) = x + sum_Z l.
Proof. reflexivity. Qed.

Lemma sum_Z_indicator_absent (x : string) (c : Z) ks :
  ~ In x ks -> sum_Z (map (fun k => if String.eqb x k then c else 0) ks) = 0.
Proof.
  induction ks as [|k ks IH]; intros Hn; [reflexivity|].
  cbn [map]. rewrite sum_Z_cons, IH by (intros I; apply Hn; now right).
  destruct (String.eqb_spec x k) as [->|_]; [|reflexivity].
  exfalso. apply Hn. now left.
Qed.

Lemma sum_Z_indicator (x : string) (c : Z) ks :
  NoDup ks -> In x ks ->
  sum_Z (map (fun k => if String.eqb x k then c else 0) ks) = c.
Proof.
  induction ks as [|k ks IH]; intros N I; [destruct I|].
  inversion N as [|? ? Hn Hr]; subst. cbn [map]. rewrite sum_Z_cons.
  destruct (String.eqb_spec x k) as [->|Hne].
  - rewrite sum_Z_indicator_absent by exact Hn. lia.
  - destruct I as [E|I]; [congruence|]. rewrite IH; auto.
Qed.

(** Summing a weight bucket by bucket gives the sum over all elements,
    when the buckets are distinct and cover every element. *)
Lemma sum_over_buckets {A : Type} (key : A -> string) (w : A -> Z) ks (E : list A) :
  NoDup ks ->
  (forall e, In e E -> In (key e) ks) ->
  sum_Z (map (fun k => sum_Z (map w (filter (fun e => String.eqb (key e) k) E))) ks)
  = sum_Z (map w E).
Proof.
  intros N. induction E as [|e E IH]; intros Hc.
  - cbn [filter map]. clear N Hc.
    induction ks as [|k ks IHk]; [reflexivity|].
    cbn [map]. now rewrite sum_Z_cons, IHk.
  - cbn [map]. rewrite sum_Z_cons.
    rewrite <- IH by (intros e' I; apply Hc; now right).
    rewrite <- (@sum_Z_indicator (key e) (w e) ks N (Hc e (or_introl eq_refl))).
    rewrite <- sum_Z_map_add. f_equal. apply map_ext. intros k.
    cbn [filter]. destruct (String.eqb (key e) k); [|lia].
    cbn [map]. now rewrite sum_Z_cons.
Qed.

Lemma length_as_sum {A : Type} (l : list A) :
  Z.of_nat (List.length l) = sum_Z (map (fun _ => 1) l).
Proof.
  induction l as [|x l IH]; [reflexivity|].
  cbn [List.length map]. rewrite sum_Z_cons. lia.
Qed.

Lemma snd_fold_execution_step hash processes name_to_id E d u :
  snd (fold_left (execution_step hash processes name_to_id) E (d, u))
  = fold_left (fun u e => note_unknown name_to_id (e_process_name e) u) E u.
Proof.
  revert d u. induction E as [|e E IH]; intros d u; simpl; [reflexivity|].
  apply IH.
Qed.

(* ================================================================= *)
(** ** Further properties of generate_execution_stats *)

(** X1: The returned list holds one element per distinct bucket identifier,
    in the order in which the identifiers first appear among the
    executions, each element being the summary of the executions filed
    under its identifier. *)
Theorem stats_in_order_of_first_appearance
    (hash : string -> Z) (processes : dict ProcessInfo)
    (process_sizes : dict Z) (executions : list ExecutionInfo) :
  map fst (generate_execution_stats_items hash processes process_sizes executions)
  = first_occurrences (map (key_of hash processes) executions)
  /\ generate_execution_stats hash processes process_sizes executions
     = map (fun k =>
              summary processes k (executions_of hash processes k executions)
                (last_size 0 k process_sizes))
           (first_occurrences (map (key_of hash processes) executions)).
Proof.
  unfold generate_execution_stats. rewrite items_are_expected.
  unfold expected_items. rewrite !map_map. simpl. split; [apply map_id | reflexivity].
Qed.

(** X2: No execution is lost or counted twice: the execution counts of the
    returned elements add up to the number of executions. *)
Theorem execution_counts_add_up
    (hash : string -> Z) (processes : dict ProcessInfo)
    (process_sizes : dict Z) (executions : list ExecutionInfo) :
  sum_Z (map execution_count
           (generate_execution_stats hash processes process_sizes executions))
  = Z.of_nat (List.length executions).
Proof.
  unfold generate_execution_stats. rewrite items_are_expected.
  unfold expected_items. rewrite !map_map. cbn [snd summary execution_count].
  rewrite length_as_sum.
  rewrite <- (sum_over_buckets (key_of hash processes) (fun _ => 1)
                (ks := first_occurrences (map (key_of hash processes) executions))).
  - f_equal. apply map_ext. intros k. apply length_as_sum.
  - apply first_occurrences_NoDup.
  - intros e I. apply first_occurrences_in. now apply in_map.
Qed.

(** X3: The total sizes of the returned elements add up to the sum of all
    execution sizes plus the definition sizes of the reported buckets,
    each taken once. *)
Theorem total_sizes_add_up
    (hash : string -> Z) (processes : dict ProcessInfo)
    (process_sizes : dict Z) (executions : list ExecutionInfo) :
  wf process_sizes ->
  sum_Z (map total_size_bytes
           (generate_execution_stats hash processes process_sizes executions))
  = sum_Z (map size_bytes executions)
    + sum_Z (map (fun k => get_default k 0 process_sizes)
               (first_occurrences (map (key_of hash processes) executions))).
Proof.
  intros W. unfold generate_execution_stats. rewrite items_are_expected.
  unfold expected_items. rewrite !map_map. cbn [snd summary total_size_bytes].
  rewrite sum_Z_map_add. f_equal.
  - apply (sum_over_buckets (key_of hash processes) size_bytes).
    + apply first_occurrences_NoDup.
    + intros e I. apply first_occurrences_in. now apply in_map.
  - f_equal. apply map_ext. intros k. now apply last_size_wf.
Qed.

Lemma total_sizes_add_up_witness :
  wf scen_sizes
  /\ sum_Z (map total_size_bytes
              (generate_execution_stats sum_codes scen_processes scen_sizes
                 scen_executions))
     = 5500 + 1000.
Proof.
  assert (W : wf scen_sizes).
  { unfold wf. simpl. repeat constructor. simpl. tauto. }
  split; [exact W|].
  rewrite (@total_sizes_add_up sum_codes scen_processes scen_sizes scen_executions W).
  reflexivity.
Defined.

(** X4: Definitions without executions leave the result unchanged: two
    definition-size mappings that agree on the identifiers the executions
    are filed under give the same list. *)
Theorem unexecuted_definitions_do_not_matter
    (hash : string -> Z) (processes : dict ProcessInfo)
    (sizes sizes' : dict Z) (executions : list ExecutionInfo) :
  wf sizes -> wf sizes' ->
  (forall e, In e executions ->
             get (key_of hash processes e) sizes = get (key_of hash processes e) sizes') ->
  generate_execution_stats hash processes sizes executions
  = generate_execution_stats hash processes sizes' executions.
Proof.
  intros W W' H. unfold generate_execution_stats. rewrite !items_are_expected.
  unfold expected_items. f_equal. apply map_ext_in. intros k I.
  apply first_occurrences_in, in_map_iff in I as (e & <- & I).
  rewrite (last_size_wf 0 _ W), (last_size_wf 0 _ W').
  unfold get_default. now rewrite (H e I).
Qed.

Lemma unexecuted_definitions_do_not_matter_witness :
  generate_execution_stats sum_codes scen_processes scen_sizes scen_executions
  = generate_execution_stats sum_codes scen_processes idle_sizes scen_executions.
Proof.
  apply unexecuted_definitions_do_not_matter.
  - unfold wf. simpl. repeat constructor. simpl. tauto.
  - unfold wf. simpl. repeat constructor; simpl; intuition discriminate.
  - intros e [<-|[<-|[<-|[]]]]; reflexivity.
Defined.

(** X5: With no executions nothing is reported, whatever the definitions. *)
Theorem no_executions_no_report
    (hash : string -> Z) (processes : dict ProcessInfo) (process_sizes : dict Z) :
  generate_execution_stats hash processes process_sizes [] = [].
Proof.
  unfold generate_execution_stats. now rewrite items_are_expected.
Qed.

Lemma fallback_id_nonempty hash name : fallback_id hash name <> "".
Proof. discriminate. Qed.

Lemma key_of_nonempty hash processes e : key_of hash processes e <> "".
Proof.
  unfold key_of, bucket_key, resolve.
  destruct (String.eqb_spec
              (get_default (e_process_name e) ""
                 (create_process_name_to_id_mapping processes)) "") as [_|Hne];
    [apply fallback_id_nonempty | exact Hne].
Qed.

(** X6: Every returned element carries a [ProcessInfo], and no bucket is
    keyed by the empty string: an index entry whose identifier is empty is
    treated like a missing one. *)
Theorem every_element_has_info_and_key
    (hash : string -> Z) (processes : dict ProcessInfo)
    (process_sizes : dict Z) (executions : list ExecutionInfo) :
  (forall st,
      In st (generate_execution_stats hash processes process_sizes executions) ->
      exists info, process_info st = Some info)
  /\ (forall k st,
         In (k, st) (generate_execution_stats_items
                       hash processes process_sizes executions) ->
         k <> "").
Proof.
  split.
  - intros st I. apply in_generate_execution_stats in I as (k & I).
    apply items_spec in I as (_ & ->). eexists. reflexivity.
  - intros k st I.
    assert (Hk : In k (map fst (generate_execution_stats_items
                                  hash processes process_sizes executions))).
    { change k with (fst (k, st)). now apply in_map. }
    apply in_items_keys, in_map_iff in Hk as (e & <- & _).
    apply key_of_nonempty.
Qed.

Lemma resolved_name_filed_under_definition
    (hash : string -> Z) (processes : dict ProcessInfo)
    (process_sizes : dict Z) (executions : list ExecutionInfo)
    (e : ExecutionInfo) (pid : string) :
  wf processes ->
  In e executions ->
  get (e_process_name e) (create_process_name_to_id_mapping processes) = Some pid ->
  pid <> "" ->
  key_of hash processes e = pid
  /\ exists st info,
      In (pid, st) (generate_execution_stats_items
                      hash processes process_sizes executions)
      /\ process_info st = Some info
      /\ get pid processes = Some info
      /\ process_name info = e_process_name e.
Proof.
  intros W I G Hne.
  assert (K : key_of hash processes e = pid).
  { unfold key_of, bucket_key, resolve, get_default. rewrite G.
    destruct (String.eqb_spec pid ""); [contradiction | reflexivity]. }
  split; [exact K|].
  apply get_fold_add_name_origin in G as [(info & Hin & Hn)|G]; [|discriminate].
  apply (in_get_wf _ _ W) in Hin.
  exists (summary processes pid (executions_of hash processes pid executions)
            (last_size 0 pid process_sizes)), info.
  split; [|split; [|split; assumption]].
  - apply items_spec. split; [|reflexivity].
    apply executions_of_nonempty. rewrite <- K. now apply in_map.
  - unfold summary, attached_info. cbn [process_info]. now rewrite Hin.
Qed.

(** X7: An execution whose display name the index maps to a non-empty
    identifier is filed under that identifier, and the element emitted for
    it carries the definition's own [ProcessInfo], whose display name is
    the execution's. *)
Theorem resolved_name_gets_its_definition
    (hash : string -> Z) (processes : dict ProcessInfo)
    (process_sizes : dict Z) (executions : list ExecutionInfo)
    (e : ExecutionInfo) (pid : string) :
  wf processes ->
  In e executions ->
  get (e_process_name e) (create_process_name_to_id_mapping processes) = Some pid ->
  pid <> "" ->
  key_of hash processes e = pid
  /\ exists st info,
      In (pid, st) (generate_execution_stats_items
                      hash processes process_sizes executions)
      /\ process_info st = Some info
      /\ get pid processes = Some info
      /\ process_name info = e_process_name e.
Proof. apply resolved_name_filed_under_definition. Qed.

Lemma resolved_name_gets_its_definition_witness :
  key_of sum_codes scen_processes
    (mkExecutionInfo "execution-1" "Invoice Sync" "" 2000 None) = "A1".
Proof.
  refine (proj1 (@resolved_name_gets_its_definition sum_codes scen_processes
                   scen_sizes scen_executions
                   (mkExecutionInfo "execution-1" "Invoice Sync" "" 2000 None)
                   "A1" _ _ eq_refl _)).
  - unfold wf. simpl. repeat constructor. simpl. tauto.
  - simpl. auto.
  - discriminate.
Defined.

(** X8: With an empty definition mapping every returned element is a
    placeholder of type "unknown" whose identifier is the fallback
    identifier of the display name it carries, and that name is the name
    of one of the executions. *)
Theorem no_definitions_only_placeholders
    (hash : string -> Z) (process_sizes : dict Z)
    (executions : list ExecutionInfo) (st : ExecutionStats) :
  In st (generate_execution_stats hash [] process_sizes executions) ->
  exists e,
    In e executions
    /\ process_info st
       = Some (mkProcessInfo (fallback_id hash (e_process_name e))
                 (e_process_name e) "unknown" "").
Proof.
  intros I. apply in_generate_execution_stats in I as (k & I).
  apply items_spec in I as (Hne & ->).
  destruct (executions_of hash [] k executions) as [|e L] eqn:HL; [congruence|].
  assert (He : In e (executions_of hash [] k executions)) by (rewrite HL; now left).
  apply in_executions_of in He as [He Hk].
  exists e. split; [exact He|].
  rewrite <- Hk. reflexivity.
Qed.

Lemma no_definitions_only_placeholders_witness :
  exists e,
    In e clash_executions
    /\ Some (mkProcessInfo "unknown_process_88" "X" "unknown" "")
       = Some (mkProcessInfo (fallback_id sum_codes (e_process_name e))
                 (e_process_name e) "unknown" "").
Proof.
  apply (@no_definitions_only_placeholders sum_codes [] clash_executions
           (mkExecutionStats
              (Some (mkProcessInfo "unknown_process_88" "X" "unknown" "")) 1 10 10)).
  vm_compute. now left.
Defined.

(** X9: The set of unknown names collected for the closing diagnostic holds,
    without repetition, exactly the display names of the executions that
    were filed under a fallback identifier. *)
Theorem unknown_processes_are_the_unresolved_names
    (hash : string -> Z) (processes : dict ProcessInfo)
    (executions : list ExecutionInfo) :
  NoDup (unknown_processes hash processes executions)
  /\ forall name,
      In name (unknown_processes hash processes executions)
      <-> exists e, In e executions /\ e_process_name e = name
                    /\ is_unresolved processes name = true
                    /\ key_of hash processes e = fallback_id hash name.
Proof.
  unfold unknown_processes, after_executions.
  rewrite snd_fold_execution_step.
  set (idx := create_process_name_to_id_mapping processes).
  assert (G : forall E u,
             (NoDup u ->
              NoDup (fold_left (fun u e => note_unknown idx (e_process_name e) u) E u))
             /\ forall name,
                 In name (fold_left (fun u e => note_unknown idx (e_process_name e) u) E u)
                 <-> In name u
                     \/ exists e, In e E /\ e_process_name e = name
                                  /\ is_unresolved processes name = true).
  { induction E as [|e E IH]; intros u; simpl.
    - split; [auto|]. intros name. split; [auto | intros [I|(e & [] & _)]; exact I].
    - destruct (IH (note_unknown idx (e_process_name e) u)) as [IN II].
      split.
      + intros N. apply IN. unfold note_unknown.
        destruct (String.eqb _ ""); [now apply NoDup_set_add | exact N].
      + intros name. rewrite II. unfold note_unknown.
        fold idx. change (String.eqb (get_default (e_process_name e) "" idx) "")
          with (is_unresolved processes (e_process_name e)).
        destruct (is_unresolved processes (e_process_name e)) eqn:U.
        * rewrite in_set_add. split.
          -- intros [[->|I]|(e' & I & Hn & Hu)]; auto.
             ++ right. exists e. auto.
             ++ right. exists e'. auto.
          -- intros [I|(e' & [<-|I] & Hn & Hu)]; auto.
             right. exists e'. auto.
        * split.
          -- intros [I|(e' & I & Hn & Hu)]; auto. right. exists e'. auto.
          -- intros [I|(e' & [<-|I] & Hn & Hu)]; auto.
             ++ congruence.
             ++ right. exists e'. auto. }
  destruct (G executions []) as [GN GI]. split; [apply GN; constructor|].
  intros name. rewrite GI. split.
  - intros [[]|(e & I & Hn & Hu)]. exists e. repeat split; auto.
    unfold key_of, bucket_key, resolve. fold idx.
    unfold is_unresolved in Hu. fold idx in Hu. rewrite Hn. now rewrite Hu.
  - intros (e & I & Hn & Hu & _). right. exists e. auto.
Qed.

(* ================================================================= *)
(** ** Further properties of the name index *)

Lemma keys_fold_add_name P acc :
  keys (fold_left add_name P acc)
  = fold_left (fun a y => set_add y a)
      (map (fun item : string * ProcessInfo => process_name (snd item)) P) (keys acc).
Proof.
  revert acc. induction P as [|[pid info] P IH]; intros acc; [reflexivity|].
  cbn [fold_left map add_name snd]. now rewrite IH, keys_set_add.
Qed.

(** X10: The index has one entry per distinct display name, in order of first
    appearance; when no two definitions share a display name, looking up
    the name of any definition returns that definition's identifier. *)
Theorem name_index_inverts_distinct_names (processes : dict ProcessInfo) :
  keys (create_process_name_to_id_mapping processes)
  = first_occurrences
      (map (fun item : string * ProcessInfo => process_name (snd item)) processes)
  /\ (NoDup (map (fun item : string * ProcessInfo => process_name (snd item))
               processes) ->
      forall pid info,
        In (pid, info) processes ->
        get (process_name info) (create_process_name_to_id_mapping processes)
        = Some pid).
Proof.
  split; [apply keys_fold_add_name|].
  intros N pid info I.
  destruct (in_split _ _ I) as (earlier & later & ->).
  apply get_index_last. intros pid' info' I' Heq.
  rewrite map_app in N. apply NoDup_remove_2 in N. apply N.
  rewrite in_app_iff. right.
  change (process_name info) with (process_name (snd (pid, info))).
  cbn [snd]. rewrite <- Heq.
  apply (in_map (fun item : string * ProcessInfo => process_name (snd item))
           later (pid', info')). exact I'.
Qed.

Lemma name_index_inverts_distinct_names_witness :
  get "Invoice Sync" (create_process_name_to_id_mapping scen_processes) = Some "A1".
Proof.
  refine (proj2 (name_index_inverts_distinct_names scen_processes) _ "A1"
            (mkProcessInfo "A1" "Invoice Sync" "process" "Finance") _).
  - simpl. repeat constructor. simpl. tauto.
  - simpl. auto.
Defined.

(* ================================================================= *)
(** ** Further properties of the size scanner *)

Lemma skip_total_prefix_bounds events :
  (forall ev, In ev events -> 0 <= accessible_size ev) ->
  0 <= skip_and_continue_total (before_first_error events)
  <= skip_and_continue_total events.
Proof.
  unfold skip_and_continue_total.
  induction events as [|ev rest IH]; intros Hpos; simpl; [lia|].
  assert (H0 : 0 <= accessible_size ev) by (apply Hpos; now left).
  assert (Hr : 0 <= sum_Z (map accessible_size (before_first_error rest))
               <= sum_Z (map accessible_size rest)).
  { apply IH. intros ev' I. apply Hpos. now right. }
  unfold sum_Z in *.
  destruct (event_error ev); simpl; lia.
Qed.

(** X11: An exception escapes the scanner exactly when one of the three
    calls made outside the [try] is refused: [exists()], or [is_file()] on
    a path that exists, or [stat()] on a regular file (lines 75-79).  An
    error raised during the walk never escapes. *)
Theorem scanner_raises_only_outside_the_walk (path : Path) (e : exn) :
  fst (get_file_size_recursive path) = Raise e
  <-> exists msg,
      e = OSError msg
      /\ (path_exists path = Fails msg
          \/ (path_exists path = Done true /\ path_is_file path = Fails msg)
          \/ (path_exists path = Done true /\ path_is_file path = Done true
              /\ path_st_size path = Fails msg)).
Proof.
  unfold get_file_size_recursive.
  destruct (path_exists path) as [[|]|m1].
  - destruct (path_is_file path) as [[|]|m2].
    + destruct (path_st_size path) as [n|m3]; simpl.
      * split; [discriminate|].
        intros (msg & _ & [H|[[_ H]|(_ & _ & H)]]); discriminate.
      * split.
        -- intros [= <-]. exists m3. split; [reflexivity|].
           right; right. repeat split.
        -- intros (msg & -> & [H|[[_ H]|(_ & _ & H)]]); try discriminate.
           now injection H as ->.
    + rewrite walk_loop_spec. destruct (first_error (path_rglob path)); simpl;
        (split; [discriminate|];
         intros (msg & _ & [H|[[_ H]|(_ & H & _)]]); discriminate).
    + simpl. split.
      * intros [= <-]. exists m2. split; [reflexivity|].
        right; left. split; reflexivity.
      * intros (msg & -> & [H|[[_ H]|(_ & H & _)]]); try discriminate.
        now injection H as ->.
  - simpl. split; [discriminate|].
    intros (msg & _ & [H|[[H _]|(H & _)]]); discriminate.
  - simpl. split.
    + intros [= <-]. exists m1. split; [reflexivity|]. now left.
    + intros (msg & -> & [H|[[H _]|(H & _)]]); try discriminate.
      now injection H as ->.
Qed.

(** X12: When [exists()] returns [False], or returns [True] and
    [is_file()] returns [False], the scanner returns a number between 0
    and the sum of the sizes of all readable regular files of the walk
    (it can only under-report) and prints at most one line, provided the
    reported sizes are not negative. *)
Theorem scanner_only_under_reports (path : Path) :
  path_exists path = Done false
  \/ (path_exists path = Done true /\ path_is_file path = Done false) ->
  (forall ev, In ev (path_rglob path) -> 0 <= accessible_size ev) ->
  exists n,
    fst (get_file_size_recursive path) = Ok n
    /\ 0 <= n <= skip_and_continue_total (path_rglob path)
    /\ (List.length (snd (get_file_size_recursive path)) <= 1)%nat.
Proof.
  intros Hc Hpos. unfold get_file_size_recursive.
  pose proof (skip_total_prefix_bounds _ Hpos) as B.
  destruct Hc as [->|[-> ->]].
  - exists 0. simpl. repeat split; auto; lia.
  - rewrite walk_loop_spec. simpl Z.add.
    exists (skip_and_continue_total (before_first_error (path_rglob path))).
    destruct (first_error (path_rglob path)); simpl; repeat split; auto; lia.
Qed.

Lemma scanner_only_under_reports_witness :
  exists n,
    fst (get_file_size_recursive locked_dir) = Ok n
    /\ 0 <= n <= skip_and_continue_total (path_rglob locked_dir)
    /\ (List.length (snd (get_file_size_recursive locked_dir)) <= 1)%nat.
Proof.
  apply scanner_only_under_reports; [right; split; reflexivity|].
  intros ev [<-|[<-|[<-|[]]]]; simpl; lia.
Defined.

(* ================================================================= *)
(** ** Further properties of the CSV report *)

Section ReportMore.

Context {F : PyFloat}.

Lemma csv_row_without_info (s : ExecutionStats) :
  process_info s = None ->
  Z.abs (total_size_bytes s) < float_range * 1048576 ->
  csv_row s = Raise (AttributeError "process_name").
Proof.
  intros Hn Ht. unfold csv_row, info_field.
  rewrite no_definition_size_attribute, Hn, (total_size_mb_ok s Ht). reflexivity.
Qed.

Lemma csv_row_with_info (s : ExecutionStats) :
  (exists info, process_info s = Some info) ->
  sizes_fit_float s ->
  exists row, csv_row s = Ok row /\ List.length row = 11%nat.
Proof.
  intros (info & Hi) Hf. rewrite (@csv_row_shape _ s info Hi Hf).
  eexists. split; reflexivity.
Qed.

(** With a [ProcessInfo] at hand a row can fail only on a figure that
    does not fit a float. *)
Lemma csv_row_with_info_raises (s : ExecutionStats) (e : exn) :
  (exists info, process_info s = Some info) ->
  csv_row s = Raise e -> e = OverflowError.
Proof.
  intros (info & Hi).
  unfold csv_row, info_field, avg_size_mb, max_size_mb, total_size_mb, float_truediv.
  rewrite !int_truediv_mb, no_definition_size_attribute, Hi.
  destruct (quotient_overflows (total_size_bytes s) 1048576); simpl;
    [now intros [= <-]|].
  destruct (execution_count s =? 0) eqn:E; simpl.
  - destruct (quotient_overflows (max_size_bytes s) 1048576); simpl;
      [now intros [= <-] | discriminate].
  - destruct (int_overflows (execution_count s)); simpl; [now intros [= <-]|].
    destruct (quotient_overflows (max_size_bytes s) 1048576); simpl;
      [now intros [= <-] | discriminate].
Qed.

Lemma write_rows_with_info_raises (writerow : nat -> os_result unit)
    (l : list ExecutionStats) (written : list (list value)) (e : exn) :
  (forall s, In s l -> exists info, process_info s = Some info) ->
  snd (write_rows writerow l written) = Raise e ->
  e = OverflowError \/ exists msg, e = OSError msg.
Proof.
  revert written. induction l as [|s l IH]; intros written H; simpl;
    [discriminate|].
  destruct (csv_row s) as [row|e'] eqn:R.
  - destruct (writerow (List.length written)) as [u|msg].
    + apply IH. intros s' I. apply H. now right.
    + simpl. intros [= <-]. right. now exists msg.
  - simpl. intros [= <-]. left.
    apply (@csv_row_with_info_raises s); [apply H; now left | exact R].
Qed.

Lemma write_rows_all_ok (writerow : nat -> os_result unit)
    (l : list ExecutionStats) (written : list (list value)) :
  (forall n, writerow n = Done tt) ->
  (forall s, In s l -> (exists info, process_info s = Some info) /\ sizes_fit_float s) ->
  exists rows,
    write_rows writerow l written = (written ++ rows, Ok tt)
    /\ List.length rows = List.length l
    /\ forall row, In row rows -> List.length row = 11%nat.
Proof.
  intros Hw. revert written. induction l as [|s l IH]; intros written H.
  - exists []. simpl. rewrite app_nil_r. repeat split. intros row [].
  - destruct (H s (or_introl eq_refl)) as [Hi Hf].
    destruct (@csv_row_with_info s Hi Hf) as (row & Hr & Hl).
    destruct (IH (written ++ [row]) (fun s' I => H s' (or_intror I)))
      as (rows & Hrows & Hn & Hall).
    exists (row :: rows). cbn [write_rows]. rewrite Hr, Hw, Hrows, <- app_assoc.
    repeat split; [simpl; now rewrite Hn|].
    intros r [<-|I]; auto.
Qed.

Lemma engine_output_has_info hash processes process_sizes executions s :
  In s (generate_execution_stats hash processes process_sizes executions) ->
  exists info, process_info s = Some info.
Proof.
  intros I. apply in_generate_execution_stats in I as (k & I).
  apply items_spec in I as (_ & ->). eexists. reflexivity.
Qed.

(** X13: The report of what the engine returns never fails on a missing
    [ProcessInfo]: the call does not raise [AttributeError].  When the file
    opens, takes every row and closes, and the figures of every element
    are within the range of a float, the call returns, the file holds the
    header followed by one row of eleven fields per returned element, and
    the closing line is printed. *)
Theorem report_of_engine_output_is_complete
    (hash : string -> Z) (processes : dict ProcessInfo)
    (process_sizes : dict Z) (executions : list ExecutionInfo)
    (filename : OutputFile) :
  let stats_list := generate_execution_stats hash processes process_sizes executions in
  (forall attr,
      snd (fst (write_csv_report stats_list filename)) <> Raise (AttributeError attr))
  /\ (file_is_writable filename ->
      (forall st, In st stats_list -> sizes_fit_float st) ->
      exists rows,
        write_csv_report stats_list filename
        = (csv_header :: rows, Ok tt,
           [""; ("Detailed CSV report written to: " ++ file_absolute filename)%string])
        /\ List.length rows = List.length stats_list
        /\ forall row, In row rows -> List.length row = 11%nat).
Proof.
  intros stats_list. split.
  - intros attr. unfold write_csv_report, leave_with.
    destruct (file_open filename) as [|msg|msg]; [|discriminate|discriminate].
    assert (W : forall e,
               snd (write_rows (file_writerow filename) stats_list [csv_header])
               = Raise e -> e <> AttributeError attr).
    { intros e He.
      apply (@write_rows_with_info_raises _ stats_list [csv_header]) in He
        as [->|(msg & ->)]; try discriminate.
      intros s I. eapply engine_output_has_info. exact I. }
    destruct (file_writerow filename 0) as [u|msg].
    + destruct (write_rows (file_writerow filename) stats_list [csv_header])
        as [rows outcome].
      destruct (file_close filename) as [u'|msg]; [|discriminate].
      destruct outcome as [u''|e]; [discriminate|]. simpl. intros [= ->].
      now apply (W (AttributeError attr)).
    + destruct (file_close filename) as [u'|msg']; discriminate.
  - intros (Ho & Hw & Hc) Hf. unfold write_csv_report, leave_with.
    rewrite Ho, Hw, Hc.
    destruct (@write_rows_all_ok (file_writerow filename) stats_list [csv_header] Hw)
      as (rows & -> & Hn & Hall).
    { intros s I. split; [eapply engine_output_has_info; exact I | now apply Hf]. }
    exists rows. repeat split; auto.
Qed.

(** X14: When the file opens, takes every row and closes, writing stops at
    the first element without a [ProcessInfo]: provided the figures of the
    elements before it and its own total are within the range of a float,
    the call raises [AttributeError], the file keeps the header and the
    rows of the elements before it, and the closing line is not printed. *)
Theorem report_stops_at_missing_info
    (good : list ExecutionStats) (bad : ExecutionStats)
    (rest : list ExecutionStats) (filename : OutputFile) :
  file_is_writable filename ->
  (forall s, In s good ->
             (exists info, process_info s = Some info) /\ sizes_fit_float s) ->
  process_info bad = None ->
  Z.abs (total_size_bytes bad) < float_range * 1048576 ->
  exists rows,
    write_csv_report (good ++ bad :: rest) filename
    = (csv_header :: rows, Raise (AttributeError "process_name"), [])
    /\ List.length rows = List.length good.
Proof.
  intros (Ho & Hw & Hc) Hg Hb Ht. unfold write_csv_report, leave_with.
  rewrite Ho, Hw, Hc.
  assert (G : forall written,
             exists rows,
               write_rows (file_writerow filename) (good ++ bad :: rest) written
               = (written ++ rows, Raise (AttributeError "process_name"))
               /\ List.length rows = List.length good).
  { induction good as [|s good IH]; intros written.
    - exists []. cbn [app write_rows]. rewrite (@csv_row_without_info bad Hb Ht).
      now rewrite app_nil_r.
    - destruct (Hg s (or_introl eq_refl)) as [Hi Hf].
      destruct (@csv_row_with_info s Hi Hf) as (row & Hr & _).
      cbn [app write_rows]. rewrite Hr, Hw.
      destruct (IH (fun s' I => Hg s' (or_intror I)) (written ++ [row]))
        as (rows & Hrows & Hn).
      exists (row :: rows). rewrite Hrows, <- app_assoc. simpl. now rewrite Hn. }
  destruct (G [csv_header]) as (rows & -> & Hn).
  exists rows. split; [reflexivity | exact Hn].
Qed.

End ReportMore.

Lemma report_stops_at_missing_info_witness :
  exists rows,
    write_csv_report (F := QFloat)
      ([invoice_stats] ++ mkExecutionStats None 1 10 10 :: [invoice_stats])
      report_file
    = (csv_header :: rows, Raise (AttributeError "process_name"), [])
    /\ List.length rows = 1%nat.
Proof.
  refine (@report_stops_at_missing_info QFloat [invoice_stats]
            (mkExecutionStats None 1 10 10) [invoice_stats] report_file
            (conj eq_refl (conj (fun _ => eq_refl) eq_refl)) _ eq_refl _).
  - intros s [<-|[]]. split; [eexists; reflexivity | fits_float].
  - vm_compute. reflexivity.
Defined.

(* ================================================================= *)
(** ** The definition loaders *)

Lemma in_set_inv {V : Type} (k k0 : string) (v v0 : V) (d : dict V) :
  In (k0, v0) (set k v d) -> (k0 = k /\ v0 = v) \/ In (k0, v0) d.
Proof.
  induction d as [|[k' v'] r IH]; simpl.
  - intros [E|[]]. injection E as <- <-. now left.
  - destruct (String.eqb_spec k k') as [->|Hne]; simpl.
    + intros [E|I]; [injection E as <- <-; now left | right; now right].
    + intros [E|I]; [right; now left|].
      apply IH in I as [H|I]; [now left | right; now right].
Qed.

Lemma load_loop_ok dirs P out P' :
  fst (load_loop dirs P out) = Ok P' -> P' = fold_left add_loaded dirs P.
Proof.
  revert P out. induction dirs as [|d dirs IH]; intros P out; simpl.
  - now intros [= <-].
  - unfold add_loaded, loaded_info, parse_process_xml. cbn [xml_parse].
    destruct (pd_main_xml d) as [[[root|f|e]|]|msg]; try apply IH.
    + destruct (String.eqb (process_id (process_info_of_root root)) ""); apply IH.
    + discriminate.
    + discriminate.
Qed.

Lemma load_loop_no_raise dirs P out :
  (forall d, In d dirs ->
             (forall msg, pd_main_xml d <> Fails msg)
             /\ forall e, pd_main_xml d <> Done (Some (ParseRaises e))) ->
  fst (load_loop dirs P out) = Ok (fold_left add_loaded dirs P).
Proof.
  revert P out. induction dirs as [|d dirs IH]; intros P out H; simpl; [reflexivity|].
  assert (Hr : forall d', In d' dirs ->
                 (forall msg, pd_main_xml d' <> Fails msg)
                 /\ forall e, pd_main_xml d' <> Done (Some (ParseRaises e)))
    by (intros d' I; apply H; now right).
  destruct (H d (or_introl eq_refl)) as [Hm Hd].
  unfold add_loaded, loaded_info, parse_process_xml. cbn [xml_parse].
  destruct (pd_main_xml d) as [[[root|f|e]|]|msg]; try (apply IH; exact Hr).
  - destruct (String.eqb (process_id (process_info_of_root root)) "");
      apply IH; exact Hr.
  - exfalso. now apply (Hd e).
  - exfalso. now apply (Hm msg).
Qed.

(** The comprehension keeps the entries [is_process_dir] accepts, in
    order. *)
Lemma select_process_dirs_done entries kept :
  select_process_dirs entries = Done kept -> kept = filter is_process_dir entries.
Proof.
  revert kept. induction entries as [|d rest IH]; intros kept; simpl.
  - now intros [= <-].
  - unfold is_process_dir. destruct (pd_is_dir d) as [b|msg]; [|discriminate].
    destruct (select_process_dirs rest) as [kept'|msg]; [|discriminate].
    intros [= <-]. rewrite (IH kept' eq_refl).
    destruct b; simpl; [destruct (has_process_name d)|]; reflexivity.
Qed.

Lemma select_process_dirs_total entries :
  (forall d, In d entries -> exists b, pd_is_dir d = Done b) ->
  select_process_dirs entries = Done (filter is_process_dir entries).
Proof.
  induction entries as [|d rest IH]; intros H; simpl; [reflexivity|].
  destruct (H d (or_introl eq_refl)) as (b & Hb).
  unfold is_process_dir. rewrite Hb, IH by (intros d' I; apply H; now right).
  destruct b; simpl; [destruct (has_process_name d)|]; reflexivity.
Qed.

Lemma list_process_dirs_some root dirs :
  list_process_dirs root = Done (Some dirs) ->
  root_exists root = Done true
  /\ exists entries,
      root_iterdir root = Done entries /\ dirs = filter is_process_dir entries.
Proof.
  unfold list_process_dirs.
  destruct (root_exists root) as [[|]|msg]; try discriminate.
  destruct (root_iterdir root) as [entries|msg]; [|discriminate].
  destruct (select_process_dirs entries) as [kept|msg] eqn:S; [|discriminate].
  intros [= <-]. split; [reflexivity|].
  exists entries. split; [reflexivity | now apply select_process_dirs_done].
Qed.

Lemma list_process_dirs_total root entries :
  root_exists root = Done true ->
  root_iterdir root = Done entries ->
  (forall d, In d entries -> exists b, pd_is_dir d = Done b) ->
  list_process_dirs root = Done (Some (filter is_process_dir entries)).
Proof.
  intros He Hi Hd. unfold list_process_dirs.
  now rewrite He, Hi, (select_process_dirs_total entries Hd).
Qed.

Lemma fold_add_loaded_wf dirs P : wf P -> wf (fold_left add_loaded dirs P).
Proof.
  revert P. induction dirs as [|d dirs IH]; intros P W; simpl; [exact W|].
  apply IH. unfold add_loaded. destruct (loaded_info d); [now apply wf_set | exact W].
Qed.

Lemma fold_add_loaded_in dirs P k info :
  In (k, info) (fold_left add_loaded dirs P) ->
  In (k, info) P
  \/ exists d, In d dirs /\ loaded_info d = Some info /\ k = process_id info.
Proof.
  revert P. induction dirs as [|d dirs IH]; intros P I; simpl in I; [now left|].
  apply IH in I as [I|(d' & Hd' & Hl & Hk)].
  - unfold add_loaded in I. destruct (loaded_info d) as [i|] eqn:L; [|now left].
    apply in_set_inv in I as [[-> ->]|I]; [|now left].
    right. exists d. split; [now left | split; [exact L | reflexivity]].
  - right. exists d'. split; [now right | split; assumption].
Qed.

Lemma fold_add_loaded_keys_grow dirs P k :
  In k (keys P) -> In k (keys (fold_left add_loaded dirs P)).
Proof.
  revert P. induction dirs as [|d dirs IH]; intros P I; simpl; [exact I|].
  apply IH. unfold add_loaded. destruct (loaded_info d); [|exact I].
  apply in_keys_set. now right.
Qed.

Lemma fold_add_loaded_covers dirs P d info :
  In d dirs -> loaded_info d = Some info ->
  In (process_id info) (keys (fold_left add_loaded dirs P)).
Proof.
  revert P. induction dirs as [|d' dirs IH]; intros P I L; [destruct I|].
  simpl. destruct I as [->|I]; [|now apply IH].
  apply fold_add_loaded_keys_grow. unfold add_loaded. rewrite L.
  apply in_keys_set. now left.
Qed.

Lemma loaded_info_inv d info :
  loaded_info d = Some info ->
  process_id info <> ""
  /\ exists root, pd_main_xml d = Done (Some (Parsed root))
                  /\ info = process_info_of_root root.
Proof.
  unfold loaded_info. destruct (pd_main_xml d) as [[[root|f|e]|]|msg]; try discriminate.
  destruct (String.eqb_spec (process_id (process_info_of_root root)) "") as [|Hne];
    [discriminate|].
  intros [= <-]. split; [exact Hne | now exists root].
Qed.

Lemma load_process_mapping_ok root P :
  fst (load_process_mapping root) = Ok P ->
  P = []
  \/ exists entries,
      root_iterdir root = Done entries
      /\ P = fold_left add_loaded (filter is_process_dir entries) [].
Proof.
  unfold load_process_mapping.
  destruct (list_process_dirs root) as [[dirs|]|msg] eqn:D; [| |discriminate].
  - apply list_process_dirs_some in D as (_ & entries & Hi & ->).
    destruct (load_loop _ _ _) as [r out] eqn:L.
    destruct r as [P0|e]; [|discriminate]. simpl. intros [= <-].
    right. exists entries. split; [exact Hi|].
    apply (f_equal fst) in L. cbn [fst] in L. now apply load_loop_ok in L.
  - intros [= <-]. now left.
Qed.

Lemma load_process_mapping_inv root P :
  fst (load_process_mapping root) = Ok P ->
  wf P
  /\ forall k info,
      In (k, info) P ->
      k <> "" /\ process_id info = k
      /\ exists entries d r,
          root_iterdir root = Done entries /\ In d entries
          /\ is_process_dir d = true
          /\ pd_main_xml d = Done (Some (Parsed r))
          /\ info = process_info_of_root r.
Proof.
  intros H. apply load_process_mapping_ok in H as [->|(entries & Hi & ->)].
  - split; [constructor | intros k info []].
  - split; [apply fold_add_loaded_wf; constructor|].
    intros k info I. apply fold_add_loaded_in in I as [[]|(d & Hd & L & ->)].
    apply filter_In in Hd as [Hd Hp].
    apply loaded_info_inv in L as (Hne & r & Hx & Hr).
    split; [exact Hne | split; [reflexivity|]].
    exists entries, d, r. auto.
Qed.

(** X15: Every definition returned by [load_process_mapping] is keyed by its
    own identifier, which is not empty and is the identifier read from the
    main XML file of a selected process directory; no key occurs twice. *)
Theorem loaded_definitions_are_keyed_by_their_id
    (root : ProcessesRoot) (processes : dict ProcessInfo) :
  fst (load_process_mapping root) = Ok processes ->
  wf processes
  /\ forall k info,
      In (k, info) processes ->
      k <> "" /\ process_id info = k
      /\ exists entries d r,
          root_iterdir root = Done entries /\ In d entries
          /\ is_process_dir d = true
          /\ pd_main_xml d = Done (Some (Parsed r))
          /\ info = process_info_of_root r.
Proof. apply load_process_mapping_inv. Qed.

Lemma loaded_definitions_are_keyed_by_their_id_witness :
  wf [("0a1b2c3d-1111-2222-3333-444455556666", process_info_of_root sample_process_root)].
Proof.
  exact (proj1 (@loaded_definitions_are_keyed_by_their_id sample_processes_root
                  _ eq_refl)).
Defined.

(** X16: A process directory whose main XML file is missing, unparsable or
    without identifier is skipped and the load goes on: when the processes
    directory is found and listed, [is_dir()] answers for every entry, and
    for every selected directory [main_xml.exists()] answers and no parse
    raises an exception other than the three caught ones, the call returns
    a mapping that has the identifier of every selected directory whose
    file parsed with a non-empty one. *)
Theorem load_skips_bad_descriptors
    (root : ProcessesRoot) (entries : list ProcessDir) :
  root_exists root = Done true ->
  root_iterdir root = Done entries ->
  (forall d, In d entries -> exists b, pd_is_dir d = Done b) ->
  (forall d, In d entries -> is_process_dir d = true ->
             (forall msg, pd_main_xml d <> Fails msg)
             /\ forall e, pd_main_xml d <> Done (Some (ParseRaises e))) ->
  exists processes,
    fst (load_process_mapping root) = Ok processes
    /\ forall d info,
        In d entries -> is_process_dir d = true ->
        loaded_info d = Some info ->
        mem (process_id info) processes = true.
Proof.
  intros He Hi Hd Hn.
  exists (fold_left add_loaded (filter is_process_dir entries) []). split.
  - unfold load_process_mapping.
    rewrite (list_process_dirs_total root He Hi Hd).
    pose proof (@load_loop_no_raise (filter is_process_dir entries) []
                  [("Loading " ++ count_str (filter is_process_dir entries)
                    ++ " process directories...")%string]) as L.
    destruct (load_loop _ _ _) as [r out]. simpl in L. rewrite L; [reflexivity|].
    intros d I. apply filter_In in I as [I Hp]. now apply Hn.
  - intros d info I Hp L. apply mem_true_iff.
    apply (@fold_add_loaded_covers _ _ d); [|exact L].
    apply filter_In. auto.
Qed.

Lemma load_skips_bad_descriptors_witness :
  exists processes, fst (load_process_mapping sample_processes_root) = Ok processes.
Proof.
  destruct (@load_skips_bad_descriptors sample_processes_root
              [sample_process_dir; broken_process_dir] eq_refl eq_refl)
    as (processes & H & _).
  - intros d [<-|[<-|[]]]; exists true; reflexivity.
  - intros d [<-|[<-|[]]] _; split; intros x; discriminate.
  - exists processes. exact H.
Defined.

(** X17: With the definitions [load_process_mapping] returns, an execution
    whose display name is in the index is never sent to a fallback
    bucket: it is filed under the identifier of a loaded definition with
    that display name, and the returned element carries that definition. *)
Theorem loaded_definitions_resolve_their_executions
    (hash : string -> Z) (root : ProcessesRoot) (processes : dict ProcessInfo)
    (process_sizes : dict Z) (executions : list ExecutionInfo)
    (e : ExecutionInfo) (pid : string) :
  fst (load_process_mapping root) = Ok processes ->
  In e executions ->
  get (e_process_name e) (create_process_name_to_id_mapping processes) = Some pid ->
  key_of hash processes e = pid
  /\ exists st info,
      In (pid, st) (generate_execution_stats_items
                      hash processes process_sizes executions)
      /\ process_info st = Some info
      /\ process_id info = pid
      /\ process_name info = e_process_name e.
Proof.
  intros HL I G.
  apply load_process_mapping_inv in HL as [W Hinv].
  assert (Hne : pid <> "").
  { pose proof G as G'.
    apply get_fold_add_name_origin in G' as [(info & Hin & _)|G']; [|discriminate].
    now apply Hinv in Hin as [Hne _]. }
  destruct (@resolved_name_filed_under_definition hash processes process_sizes
              executions e pid W I G Hne) as (K & st & info & Hi & Hp & Hg & Hn).
  split; [exact K|]. exists st, info. repeat split; auto.
  apply get_some_in in Hg. now apply Hinv in Hg as (_ & Hid & _).
Qed.

Lemma loaded_definitions_resolve_their_executions_witness :
  key_of sum_codes
    [("0a1b2c3d-1111-2222-3333-444455556666", process_info_of_root sample_process_root)]
    (mkExecutionInfo "execution-1" "Invoice Sync" "" 2000 None)
  = "0a1b2c3d-1111-2222-3333-444455556666".
Proof.
  refine (proj1 (@loaded_definitions_resolve_their_executions sum_codes
                   sample_processes_root _ [] 
                   [mkExecutionInfo "execution-1" "Invoice Sync" "" 2000 None]
                   (mkExecutionInfo "execution-1" "Invoice Sync" "" 2000 None)
                   "0a1b2c3d-1111-2222-3333-444455556666" eq_refl _ eq_refl)).
  simpl. auto.
Defined.

(* ================================================================= *)
(** ** The definition sizes *)

Lemma sizes_loop_inv dirs S out S' :
  fst (sizes_loop dirs S out) = Ok S' ->
  (wf S -> wf S')
  /\ (forall k, In k (keys S) \/ In k (map pd_name dirs) -> In k (keys S'))
  /\ forall k n,
      In (k, n) S' ->
      In (k, n) S
      \/ exists d, In d dirs /\ pd_name d = k
                   /\ fst (get_file_size_recursive (pd_path d)) = Ok n.
Proof.
  revert S out. induction dirs as [|d dirs IH]; intros S out; simpl.
  - intros [= <-]. split; [auto | split; [tauto | auto]].
  - destruct (get_file_size_recursive (pd_path d)) as [[n0|e] printed] eqn:G;
      [|discriminate].
    intros H. apply IH in H as (Hw & Hk & Hin). split; [|split].
    + intros W. apply Hw. now apply wf_set.
    + intros k Hor. apply Hk. rewrite in_keys_set.
      destruct Hor as [I|[E|I]]; auto.
    + intros k n I. apply Hin in I as [I|(d' & Hd' & Hn & Hs)].
      * apply in_set_inv in I as [[-> ->]|I]; [|now left].
        right. exists d. split; [now left | split; [reflexivity|]].
        now rewrite G.
      * right. exists d'. split; [now right | auto].
Qed.

Lemma is_process_dir_length d :
  is_process_dir d = true -> String.length (pd_name d) = 36%nat.
Proof.
  unfold is_process_dir, has_process_name.
  destruct (pd_is_dir d) as [[|]|msg]; try discriminate.
  rewrite andb_true_iff. intros [H _]. now apply Nat.eqb_eq.
Qed.

(** X18: The mapping returned by [analyze_process_directories] is keyed by
    directory name: every key is the 36-character name of a selected
    process directory and its value is what the size scanner returned for
    that directory; every selected directory has an entry and no key
    occurs twice. *)
Theorem definition_sizes_are_keyed_by_directory_name
    (root : ProcessesRoot) (process_sizes : dict Z) :
  fst (analyze_process_directories root) = Ok process_sizes ->
  wf process_sizes
  /\ (forall k n,
         In (k, n) process_sizes ->
         String.length k = 36%nat
         /\ exists entries d,
             root_iterdir root = Done entries /\ In d entries
             /\ is_process_dir d = true /\ pd_name d = k
             /\ fst (get_file_size_recursive (pd_path d)) = Ok n)
  /\ (forall entries d,
         root_exists root = Done true -> root_iterdir root = Done entries ->
         In d entries -> is_process_dir d = true ->
         mem (pd_name d) process_sizes = true).
Proof.
  unfold analyze_process_directories.
  destruct (list_process_dirs root) as [[dirs|]|msg] eqn:D; [| |discriminate].
  - apply list_process_dirs_some in D as (_ & entries & Hi & ->).
    intros H. apply sizes_loop_inv in H as (Hw & Hk & Hin).
    split; [apply Hw; constructor | split].
    + intros k n I. apply Hin in I as [[]|(d & Hd & <- & Hs)].
      apply filter_In in Hd as [Hd Hp].
      split; [now apply is_process_dir_length|].
      exists entries, d. auto.
    + intros entries' d _ Hi' Hd Hp. rewrite Hi in Hi'. injection Hi' as <-.
      apply mem_true_iff, Hk. right.
      apply in_map. apply filter_In. auto.
  - intros [= <-]. split; [constructor | split].
    + intros k n [].
    + intros entries d Hf. exfalso. unfold list_process_dirs in D.
      rewrite Hf in D. destruct (root_iterdir root) as [l|m]; [|discriminate].
      destruct (select_process_dirs l); discriminate.
Qed.

Lemma definition_sizes_are_keyed_by_directory_name_witness :
  wf [("0a1b2c3d-1111-2222-3333-444455556666", 1000);
      ("ffffffff-1111-2222-3333-444455556666", 0)].
Proof.
  exact (proj1 (@definition_sizes_are_keyed_by_directory_name
                  sample_processes_root _ eq_refl)).
Defined.

(* ================================================================= *)
(** ** Stripping white space *)

Lemma drop_spaces_fixed l :
  drop_spaces l = l
  <-> match l with [] => True | c :: _ => is_space c = false end.
Proof.
  destruct l as [|c l]; simpl; [tauto|].
  destruct (is_space c) eqn:Hc; [|tauto].
  split; [|discriminate]. intros H. exfalso.
  assert (Hl : (List.length (drop_spaces l) <= List.length l)%nat).
  { clear. induction l as [|x l IH]; simpl; [lia|].
    destruct (is_space x); simpl; lia. }
  rewrite H in Hl. simpl in Hl. lia.
Qed.

Lemma drop_spaces_idem l : drop_spaces (drop_spaces l) = drop_spaces l.
Proof.
  induction l as [|c l IH]; simpl; [reflexivity|].
  destruct (is_space c) eqn:Hc; [exact IH|]. simpl. now rewrite Hc.
Qed.

Lemma drop_spaces_snoc l c :
  is_space c = false -> drop_spaces (l ++ [c]) = drop_spaces l ++ [c].
Proof.
  intros Hc. induction l as [|x l IH]; simpl; [now rewrite Hc|].
  destruct (is_space x); [exact IH | reflexivity].
Qed.

(** Dropping spaces at the end of a list that has none in front leaves
    none in front. *)
Lemma trailing_drop_keeps_head l :
  drop_spaces l = l ->
  drop_spaces (rev (drop_spaces (rev l))) = rev (drop_spaces (rev l)).
Proof.
  intros H. destruct l as [|c l]; [reflexivity|].
  apply drop_spaces_fixed in H. cbn [rev].
  rewrite (@drop_spaces_snoc (rev l) c H), rev_app_distr. simpl. now rewrite H.
Qed.

Lemma strip_idempotent s : strip (strip s) = strip s.
Proof.
  unfold strip. rewrite list_ascii_of_string_of_list_ascii.
  set (a := drop_spaces (list_ascii_of_string s)).
  assert (Ha : drop_spaces a = a) by apply drop_spaces_idem.
  rewrite (@trailing_drop_keeps_head a Ha), rev_involutive.
  now rewrite drop_spaces_idem.
Qed.

Lemma find_process_name_trimmed log_events : trimmed (find_process_name log_events).
Proof.
  unfold trimmed. induction log_events as [|ev rest IH]; [reflexivity|].
  simpl. destruct (find_child "Message" ev) as [m|]; [|exact IH].
  destruct (elem_text m) as [t|]; [|exact IH].
  destruct (negb (String.eqb t "") && contains "Executing Process" t);
    [apply strip_idempotent | exact IH].
Qed.

(* ================================================================= *)
(** ** The execution loader *)

Section ExecutionLoaderFacts.

Variable fromisoformat : string -> option datetime.


Lemma parse_execution_log_some (d : ExecutionDir) (e : ExecutionInfo) :
  fst (parse_execution_log fromisoformat d) = Ok (Some e) ->
  exists root,
    ed_process_log d = Some (Parsed root)
    /\ e_process_name e = find_process_name (findall_descendants "LogEvent" root)
    /\ e_process_name e <> ""
    /\ e_process_id e = ""
    /\ execution_id e = ed_name d
    /\ fst (get_file_size_recursive (ed_scan_path d)) = Ok (size_bytes e)
    /\ timestamp e = parse_timestamp fromisoformat root.
Proof.
  unfold parse_execution_log.
  destruct (ed_process_log d) as [[root|f|x]|]; try discriminate.
  destruct (String.eqb_spec
              (find_process_name (findall_descendants "LogEvent" root)) "")
    as [|Hne]; [discriminate|].
  destruct (get_file_size_recursive (ed_scan_path d)) as [[n|x] printed];
    [|discriminate].
  simpl. intros [= <-]. exists root. simpl. repeat split; auto.
Qed.

(** X19: An execution record returned by [parse_execution_log] has a display
    name that is not empty and has no white space at either end, an empty
    process identifier, the directory's name as execution identifier and
    the size the scanner returned for the directory. *)
Theorem parsed_execution_is_well_formed (d : ExecutionDir) (e : ExecutionInfo) :
  fst (parse_execution_log fromisoformat d) = Ok (Some e) ->
  e_process_name e <> ""
  /\ trimmed (e_process_name e)
  /\ e_process_id e = ""
  /\ execution_id e = ed_name d
  /\ fst (get_file_size_recursive (ed_scan_path d)) = Ok (size_bytes e).
Proof.
  intros H. apply parse_execution_log_some in H
    as (root & _ & Hn & Hne & Hid & Hx & Hs & _).
  repeat split; auto. rewrite Hn. apply find_process_name_trimmed.
Qed.


Lemma select_execution_dirs_done items kept :
  select_execution_dirs items = Done kept ->
  kept = map hi_dir (filter is_execution_dir items).
Proof.
  revert kept. induction items as [|item rest IH]; intros kept; simpl.
  - now intros [= <-].
  - unfold is_execution_dir. destruct (hi_is_dir item) as [b|msg]; [|discriminate].
    destruct (select_execution_dirs rest) as [kept'|msg]; [|discriminate].
    intros [= <-]. rewrite (IH kept' eq_refl). now destruct b.
Qed.

Lemma is_execution_dir_true item :
  is_execution_dir item = true -> hi_is_dir item = Done true.
Proof.
  unfold is_execution_dir. now destruct (hi_is_dir item) as [[|]|msg].
Qed.

Lemma history_loop_inv dirs acc out E :
  fst (history_loop fromisoformat dirs acc out) = Ok E ->
  exists new,
    E = acc ++ new
    /\ (List.length new <= List.length dirs)%nat
    /\ forall e, In e new ->
         exists d, In d dirs /\ fst (parse_execution_log fromisoformat d) = Ok (Some e).
Proof.
  revert acc out. induction dirs as [|d dirs IH]; intros acc out; simpl.
  - intros [= <-]. exists []. rewrite app_nil_r. repeat split; auto.
    intros e [].
  - destruct (parse_execution_log fromisoformat d) as [[[e0|]|x] printed] eqn:P;
      [| |discriminate].
    + intros H. apply IH in H as (new & -> & Hl & Hin).
      exists (e0 :: new). rewrite <- app_assoc. repeat split; [simpl; lia|].
      intros e [<-|I].
      * exists d. split; [now left | now rewrite P].
      * destruct (Hin e I) as (d' & Hd' & Hp). exists d'. split; [now right | exact Hp].
    + intros H. apply IH in H as (new & -> & Hl & Hin).
      exists new. repeat split; [lia|].
      intros e I. destruct (Hin e I) as (d' & Hd' & Hp).
      exists d'. split; [now right | exact Hp].
Qed.

(** X21: Every execution returned by [analyze_execution_history] was parsed
    from a directory among the matches of the history walk, has a display
    name that is not empty and has no white space at either end, and an
    empty process identifier; there are at most as many executions as
    matched directories. *)
Theorem history_executions_are_well_formed
    (root : ExecutionRoot) (executions : list ExecutionInfo) :
  fst (analyze_execution_history fromisoformat root) = Ok executions ->
  (forall e,
      In e executions ->
      e_process_name e <> "" /\ trimmed (e_process_name e) /\ e_process_id e = ""
      /\ exists items item,
          history_rglob root = Done items /\ In item items
          /\ hi_is_dir item = Done true
          /\ execution_id e = ed_name (hi_dir item)
          /\ fst (parse_execution_log fromisoformat (hi_dir item)) = Ok (Some e))
  /\ forall items,
      history_rglob root = Done items ->
      (List.length executions <= List.length (filter is_execution_dir items))%nat.
Proof.
  unfold analyze_execution_history.
  destruct (execution_exists root) as [[|]|m1]; simpl;
    [|intros [= <-]; split; [intros e [] | intros; simpl; lia] | discriminate].
  destruct (history_exists root) as [[|]|m2]; simpl;
    [|intros [= <-]; split; [intros e [] | intros; simpl; lia] | discriminate].
  destruct (history_rglob root) as [items|msg]; [|discriminate].
  destruct (select_execution_dirs items) as [dirs|msg] eqn:S; [|discriminate].
  apply select_execution_dirs_done in S as ->.
  intros H. apply history_loop_inv in H as (new & -> & Hl & Hin). simpl.
  split.
  - intros e I. destruct (Hin e I) as (d & Hd & Hp).
    apply in_map_iff in Hd as (item & <- & Hi). apply filter_In in Hi as [Hi Hdir].
    apply is_execution_dir_true in Hdir.
    pose proof Hp as Hp'.
    apply parse_execution_log_some in Hp' as (r & _ & Hn & Hne & Hid & Hx & _).
    repeat split; auto.
    + rewrite Hn. apply find_process_name_trimmed.
    + exists items, item. auto.
  - intros items' [= <-]. now rewrite length_map in Hl.
Qed.

End ExecutionLoaderFacts.

Lemma parsed_execution_is_well_formed_witness :
  e_process_name (mkExecutionInfo "execution-1" "Invoice Sync" "" 2000
                    (Some "2026-02-01T10:00:00+00:00")) <> "".
Proof.
  exact (proj1 (@parsed_execution_is_well_formed (fun s => Some s)
                  sample_execution_dir _ eq_refl)).
Defined.

Lemma history_executions_are_well_formed_witness :
  (List.length [mkExecutionInfo "execution-1" "Invoice Sync" "" 2000
                  (Some "2026-02-01T10:00:00+00:00")]
   <= List.length (filter is_execution_dir
                     [mkHistoryItem (Done true) sample_execution_dir;
                      mkHistoryItem (Done false) sample_execution_dir]))%nat.
Proof.
  exact (proj2 (@history_executions_are_well_formed (fun s => Some s)
                  sample_execution_root _ eq_refl) _ eq_refl).
Defined.

(* ================================================================= *)
(** ** Colliding fallback identifiers *)

(** X22: Two unresolved display names whose hashes agree modulo 10000 are
    filed under one fallback identifier: a single element is returned for
    both, and it counts the executions of either name. *)
Theorem colliding_unknown_names_share_a_bucket
    (hash : string -> Z) (processes : dict ProcessInfo)
    (process_sizes : dict Z) (executions : list ExecutionInfo)
    (e1 e2 : ExecutionInfo) :
  In e1 executions -> In e2 executions ->
  get (e_process_name e1) (create_process_name_to_id_mapping processes) = None ->
  get (e_process_name e2) (create_process_name_to_id_mapping processes) = None ->
  hash (e_process_name e1) mod 10000 = hash (e_process_name e2) mod 10000 ->
  key_of hash processes e1 = key_of hash processes e2
  /\ exists st,
      In (key_of hash processes e1, st)
         (generate_execution_stats_items hash processes process_sizes executions)
      /\ (forall st', In (key_of hash processes e1, st')
                         (generate_execution_stats_items
                            hash processes process_sizes executions) -> st' = st)
      /\ In e1 (executions_of hash processes (key_of hash processes e1) executions)
      /\ In e2 (executions_of hash processes (key_of hash processes e1) executions)
      /\ execution_count st
         = Z.of_nat (List.length
                       (executions_of hash processes (key_of hash processes e1)
                          executions)).
Proof.
  intros I1 I2 G1 G2 Hh.
  assert (K : key_of hash processes e1 = key_of hash processes e2).
  { rewrite !key_of_unresolved by assumption. unfold fallback_id. now rewrite Hh. }
  split; [exact K|].
  set (k := key_of hash processes e1) in *.
  exists (summary processes k (executions_of hash processes k executions)
            (last_size 0 k process_sizes)).
  split; [|split; [|split; [|split]]].
  - apply items_spec. split; [|reflexivity].
    apply executions_of_nonempty. unfold k. now apply in_map.
  - intros st' I'. now apply items_spec in I' as (_ & ->).
  - apply in_executions_of. auto.
  - apply in_executions_of. auto.
  - reflexivity.
Qed.

Lemma colliding_unknown_names_share_a_bucket_witness :
  key_of (fun _ => 0) [] (mkExecutionInfo "execution-1" "X" "" 10 None)
  = key_of (fun _ => 0) [] (mkExecutionInfo "execution-2" "Y" "" 20 None).
Proof.
  refine (proj1 (@colliding_unknown_names_share_a_bucket (fun _ => 0) [] []
                   [mkExecutionInfo "execution-1" "X" "" 10 None;
                    mkExecutionInfo "execution-2" "Y" "" 20 None]
                   _ _ _ _ eq_refl eq_refl eq_refl)); simpl; auto.
Defined.
